(** * A tournament simulator: the innings engine, credits and awards

    A shallow embedding of [tournmant.cpp].  The C++ objects live on the heap
    and are shared through [shared_ptr]: a team's [playing5] vector, the
    batting order of one innings and the bowling order of the other innings
    all point to the same [Player] objects.  The embedding keeps that
    sharing: players live in one store ([Heap], a list indexed by player id)
    and every vector of [shared_ptr<Player>] is a list of ids.

    [int] values are integers of [Z].  Signed overflow is undefined in C++
    and no counter of a tournament comes near the limit, so no wrap-around
    is written.  [/] and [%] on [int] truncate towards zero: [Z.quot] and
    [Z.rem].

    The random draw of [playBall] is an input: the engine is given the value
    [ballOutcomes[dis(gen)]] of every ball.

    The source reports no error anywhere.  A result of [None] stands for a
    run that C++ leaves undefined or that never ends: an index out of range,
    a pointer that is not in the store, a remainder by zero, the loop of
    [changeBowler] with a single bowler, or, in [Innings.play], draws that
    run out before the innings is complete. *)

From stdpp Require Import base option list gmap strings.
From Stdlib Require Import ZArith Lia.

Local Open Scope Z_scope.

(** ** Enumerations *)

Inductive PlayerType := BATSMAN | BOWLER | ALLROUNDER.

Inductive MatchResult := WIN | LOSS | TIE | NO_RESULT.

(** ** Players *)

Module Player.

(** The fields of the base class [Player]. *)
Record Base := mkBase {
  name : string;
  age : Z;
  type : PlayerType;
  totalCredits : Z;
  matchCredits : Z;
  totalRunsScored : Z;
  totalBallsFaced : Z;
  totalWicketsTaken : Z;
  totalBallsBowled : Z;
  totalRunsConceded : Z
}.

(** The private fields of [Batsman]. *)
Record Batting := mkBatting {
  runsScored : Z;
  ballsFaced : Z;
  fours : Z;
  sixes : Z
}.

(** The private fields of [Bowler]. *)
Record Bowling := mkBowling {
  wicketsTaken : Z;
  runsConceded : Z;
  ballsBowled : Z;
  maidens : Z
}.

(** An object of one of the three concrete classes.  An [AllRounder] holds a
    whole [Batsman] and a whole [Bowler] by value ([battingStats],
    [bowlingStats]), each with a base part of its own. *)
Inductive t :=
| Batsman (b : Base) (s : Batting)
| Bowler (b : Base) (s : Bowling)
| AllRounder (b : Base) (battingStats : Base * Batting) (bowlingStats : Base * Bowling).

(** The constructors: every counter starts at zero. *)
Definition newBase (n : string) (a : Z) (ty : PlayerType) : Base :=
  mkBase n a ty 0 0 0 0 0 0 0.

Definition newBatsman (n : string) (a : Z) : t :=
  Batsman (newBase n a BATSMAN) (mkBatting 0 0 0 0).

Definition newBowler (n : string) (a : Z) : t :=
  Bowler (newBase n a BOWLER) (mkBowling 0 0 0 0).

Definition newAllRounder (n : string) (a : Z) : t :=
  AllRounder (newBase n a ALLROUNDER)
    (newBase n a BATSMAN, mkBatting 0 0 0 0)
    (newBase n a BOWLER, mkBowling 0 0 0 0).

Definition base (p : t) : Base :=
  match p with
  | Batsman b _ | Bowler b _ | AllRounder b _ _ => b
  end.

Definition mapBase (f : Base → Base) (p : t) : t :=
  match p with
  | Batsman b s => Batsman (f b) s
  | Bowler b s => Bowler (f b) s
  | AllRounder b bs ws => AllRounder (f b) bs ws
  end.

(** Getters of the base class. *)
Definition getName (p : t) : string := name (base p).
Definition getType (p : t) : PlayerType := type (base p).
Definition getTotalCredits (p : t) : Z := totalCredits (base p).
Definition getMatchCredits (p : t) : Z := matchCredits (base p).
Definition getTotalRunsScored (p : t) : Z := totalRunsScored (base p).
Definition getTotalBallsFaced (p : t) : Z := totalBallsFaced (base p).
Definition getTotalWicketsTaken (p : t) : Z := totalWicketsTaken (base p).
Definition getTotalBallsBowled (p : t) : Z := totalBallsBowled (base p).
Definition getTotalRunsConceded (p : t) : Z := totalRunsConceded (base p).

(** Getters of the derived classes; [None] stands for a class that has no
    such member. *)
Definition getRunsScored (p : t) : option Z :=
  match p with Batsman _ s => Some (runsScored s) | _ => None end.
Definition getBallsFaced (p : t) : option Z :=
  match p with Batsman _ s => Some (ballsFaced s) | _ => None end.
Definition getWicketsTaken (p : t) : option Z :=
  match p with Bowler _ s => Some (wicketsTaken s) | _ => None end.
Definition getRunsConceded (p : t) : option Z :=
  match p with Bowler _ s => Some (runsConceded s) | _ => None end.
Definition getBallsBowled (p : t) : option Z :=
  match p with Bowler _ s => Some (ballsBowled s) | _ => None end.

(** [matchCredits += d; totalCredits += d;] *)
Definition addCredits (d : Z) (b : Base) : Base :=
  mkBase (name b) (age b) (type b) (totalCredits b + d) (matchCredits b + d)
    (totalRunsScored b) (totalBallsFaced b) (totalWicketsTaken b)
    (totalBallsBowled b) (totalRunsConceded b).

(** [resetMatchCredits]: [matchCredits = 0]. *)
Definition clearMatchCredits (b : Base) : Base :=
  mkBase (name b) (age b) (type b) (totalCredits b) 0
    (totalRunsScored b) (totalBallsFaced b) (totalWicketsTaken b)
    (totalBallsBowled b) (totalRunsConceded b).

Definition addToTotalRuns (runs : Z) (b : Base) : Base :=
  mkBase (name b) (age b) (type b) (totalCredits b) (matchCredits b)
    (totalRunsScored b + runs) (totalBallsFaced b) (totalWicketsTaken b)
    (totalBallsBowled b) (totalRunsConceded b).

Definition addToTotalBallsFaced (b : Base) : Base :=
  mkBase (name b) (age b) (type b) (totalCredits b) (matchCredits b)
    (totalRunsScored b) (totalBallsFaced b + 1) (totalWicketsTaken b)
    (totalBallsBowled b) (totalRunsConceded b).

Definition addToTotalWickets (wickets : Z) (b : Base) : Base :=
  mkBase (name b) (age b) (type b) (totalCredits b) (matchCredits b)
    (totalRunsScored b) (totalBallsFaced b) (totalWicketsTaken b + wickets)
    (totalBallsBowled b) (totalRunsConceded b).

Definition addToTotalBallsBowled (b : Base) : Base :=
  mkBase (name b) (age b) (type b) (totalCredits b) (matchCredits b)
    (totalRunsScored b) (totalBallsFaced b) (totalWicketsTaken b)
    (totalBallsBowled b + 1) (totalRunsConceded b).

Definition addToTotalRunsConceded (runs : Z) (b : Base) : Base :=
  mkBase (name b) (age b) (type b) (totalCredits b) (matchCredits b)
    (totalRunsScored b) (totalBallsFaced b) (totalWicketsTaken b)
    (totalBallsBowled b) (totalRunsConceded b + runs).

(** [updateCredits], pure virtual in [Player] and overridden by each class:
    [runs / 20] for a [Batsman], [wickets] for a [Bowler], their sum for an
    [AllRounder]. *)
Definition updateCredits (runs wickets : Z) (p : t) : t :=
  match p with
  | Batsman _ _ => mapBase (addCredits (runs ÷ 20)) p
  | Bowler _ _ => mapBase (addCredits wickets) p
  | AllRounder _ _ _ => mapBase (addCredits (runs ÷ 20 + wickets)) p
  end.

(** [resetMatchCredits], virtual and never overridden. *)
Definition resetMatchCredits (p : t) : t := mapBase clearMatchCredits p.

(** [if (runs == 4) fours++; else if (runs == 6) sixes++;] *)
Definition countBoundary (runs : Z) (s : Batting) : Batting :=
  if runs =? 4 then mkBatting (runsScored s) (ballsFaced s) (fours s + 1) (sixes s)
  else if runs =? 6 then mkBatting (runsScored s) (ballsFaced s) (fours s) (sixes s + 1)
  else s.

Definition mapBatting (f : Batting → Batting) (p : t) : t :=
  match p with
  | Batsman b s => Batsman b (f s)
  | _ => p
  end.

(** [addRuns] is virtual.  [Batsman::addRuns] counts the runs, updates the
    credits with them and counts a boundary; [Bowler::addRuns] adds them to
    the runs conceded; [AllRounder] inherits [Player::addRuns]. *)
Definition addRuns (runs : Z) (p : t) : t :=
  match p with
  | Batsman b s =>
      mapBatting (countBoundary runs)
        (updateCredits runs 0
           (Batsman (addToTotalRuns runs b)
              (mkBatting (runsScored s + runs) (ballsFaced s) (fours s) (sixes s))))
  | Bowler b s =>
      Bowler (addToTotalRunsConceded runs b)
        (mkBowling (wicketsTaken s) (runsConceded s + runs) (ballsBowled s) (maidens s))
  | AllRounder b bs ws => AllRounder (addToTotalRuns runs b) bs ws
  end.

(** [addBall] is virtual.  [Batsman::addBall] counts a ball faced,
    [Bowler::addBall] a ball bowled; [AllRounder] inherits
    [Player::addBall], which counts a ball bowled in the base part. *)
Definition addBall (p : t) : t :=
  match p with
  | Batsman b s =>
      Batsman (addToTotalBallsFaced b)
        (mkBatting (runsScored s) (ballsFaced s + 1) (fours s) (sixes s))
  | Bowler b s =>
      Bowler (addToTotalBallsBowled b)
        (mkBowling (wicketsTaken s) (runsConceded s) (ballsBowled s + 1) (maidens s))
  | AllRounder b bs ws => AllRounder (addToTotalBallsBowled b) bs ws
  end.

(** [addWicket] is virtual.  Only [Bowler] overrides it (and updates the
    credits); the other classes run [Player::addWicket]. *)
Definition addWicket (p : t) : t :=
  match p with
  | Bowler b s =>
      updateCredits 0 1
        (Bowler (addToTotalWickets 1 b)
           (mkBowling (wicketsTaken s + 1) (runsConceded s) (ballsBowled s) (maidens s)))
  | Batsman b s => Batsman (addToTotalWickets 1 b) s
  | AllRounder b bs ws => AllRounder (addToTotalWickets 1 b) bs ws
  end.

(** [resetMatchStats] of each class (not virtual; no caller in the
    program). *)
Definition resetMatchStats (p : t) : t :=
  match p with
  | Batsman b _ => resetMatchCredits (Batsman b (mkBatting 0 0 0 0))
  | Bowler b _ => resetMatchCredits (Bowler b (mkBowling 0 0 0 0))
  | AllRounder b (bb, _) (wb, _) =>
      resetMatchCredits
        (AllRounder b (clearMatchCredits bb, mkBatting 0 0 0 0)
           (clearMatchCredits wb, mkBowling 0 0 0 0))
  end.

End Player.

(** The store of [Player] objects; a [shared_ptr<Player>] is an index. *)
Abbreviation Heap := (list Player.t).

(** [ptr->f()] for a method that updates the object in place; [None] when
    the pointer is not in the store. *)
Definition call (f : Player.t → Player.t) (pid : nat) (h : Heap) : option Heap :=
  p ← h !! pid; Some (<[pid := f p]> h).

(** ** The innings engine *)

(** The limits that [isInningsComplete] and [playBall] write as the literals
    [2], [2] and [6]. *)
Definition maxWickets : Z := 2.
Definition maxOvers : Z := 2.
Definition ballsPerOver : Z := 6.

(** [vector<int> ballOutcomes = {0, 1, 2, 3, 4, 5, 6}], where 5 is the
    wicket. *)
Definition ballOutcomes : list Z := [0; 1; 2; 3; 4; 5; 6].

Module Innings.

(** The state of class [Innings].  The two [Team*] members are only read by
    the constructor, for their [playing5]. *)
Record t := mk {
  battingOrder : list nat;
  bowlingOrder : list nat;
  currentBatsman1 : Z;
  currentBatsman2 : Z;
  currentBowler : Z;
  previousBowler : Z;
  totalRuns : Z;
  totalWickets : Z;
  totalOvers : Z;
  totalBalls : Z;
  currentOverBalls : Z;
  playerRuns : gmap nat Z;
  playerWickets : gmap nat Z
}.

(** [m[k] = 0] for every [k] of a vector. *)
Definition zeroAll (l : list nat) (m : gmap nat Z) : gmap nat Z :=
  foldl (λ acc k, <[k := 0]> acc) m l.

(** The constructor, given the [playing5] of the batting and of the bowling
    team. *)
Definition new (batting bowling : list nat) : t :=
  mk batting bowling 0 1 0 (-1) 0 0 0 0 0 (zeroAll batting ∅) (zeroAll bowling ∅).

(** [v[i]] for an [int] index; [None] when it is out of range. *)
Definition at_ (v : list nat) (i : Z) : option nat :=
  if i <? 0 then None else v !! Z.to_nat i.

(** [m[k] += d] on a [std::map], whose [operator[]] starts a missing key at
    zero. *)
Definition bump (k : nat) (d : Z) (m : gmap nat Z) : gmap nat Z :=
  <[k := default 0 (m !! k) + d]> m.

Definition withBatsmen (b1 b2 : Z) (s : t) : t :=
  mk (battingOrder s) (bowlingOrder s) b1 b2 (currentBowler s) (previousBowler s)
    (totalRuns s) (totalWickets s) (totalOvers s) (totalBalls s) (currentOverBalls s)
    (playerRuns s) (playerWickets s).

Definition withBowlers (cur prev : Z) (s : t) : t :=
  mk (battingOrder s) (bowlingOrder s) (currentBatsman1 s) (currentBatsman2 s) cur prev
    (totalRuns s) (totalWickets s) (totalOvers s) (totalBalls s) (currentOverBalls s)
    (playerRuns s) (playerWickets s).

(** [setBatsmen]: one pass over the batting order; a name that matches sets
    the index, a name that matches nowhere leaves it as it was. *)
Fixpoint setBatsmen_loop (h : Heap) (striker nonStriker : string)
    (rest : list nat) (i b1 b2 : Z) : option (Z * Z) :=
  match rest with
  | [] => Some (b1, b2)
  | pid :: rest' =>
      p ← h !! pid;
      let b1' := if String.eqb (Player.getName p) striker then i else b1 in
      let b2' := if String.eqb (Player.getName p) nonStriker then i else b2 in
      setBatsmen_loop h striker nonStriker rest' (i + 1) b1' b2'
  end.

Definition setBatsmen (h : Heap) (striker nonStriker : string) (s : t) : option t :=
  '(b1, b2) ← setBatsmen_loop h striker nonStriker (battingOrder s) 0
                 (currentBatsman1 s) (currentBatsman2 s);
  Some (withBatsmen b1 b2 s).

Fixpoint setBowler_loop (h : Heap) (bowlerName : string)
    (rest : list nat) (i b : Z) : option Z :=
  match rest with
  | [] => Some b
  | pid :: rest' =>
      p ← h !! pid;
      setBowler_loop h bowlerName rest' (i + 1)
        (if String.eqb (Player.getName p) bowlerName then i else b)
  end.

Definition setBowler (h : Heap) (bowlerName : string) (s : t) : option t :=
  b ← setBowler_loop h bowlerName (bowlingOrder s) 0 (currentBowler s);
  Some (withBowlers b (previousBowler s) s).

(** [totalWickets >= 2 || totalOvers >= 2] *)
Definition isInningsComplete (s : t) : bool :=
  (maxWickets <=? totalWickets s) || (maxOvers <=? totalOvers s).

(** [swap(currentBatsman1, currentBatsman2)] *)
Definition changeStrike (s : t) : t :=
  withBatsmen (currentBatsman2 s) (currentBatsman1 s) s.

(** [changeBatsman]: the next batsman takes the place of the higher of the
    two indices, when there is one left in the order.  The comparison with
    [size()] is unsigned, so a negative [nextBatsman] would not pass it. *)
Definition changeBatsman (s : t) : t :=
  let nextBatsman := Z.max (currentBatsman1 s) (currentBatsman2 s) + 1 in
  if (0 <=? nextBatsman) && (nextBatsman <? Z.of_nat (length (battingOrder s))) then
    if currentBatsman2 s <? currentBatsman1 s
    then withBatsmen nextBatsman (currentBatsman2 s) s
    else withBatsmen (currentBatsman1 s) nextBatsman s
  else s.

(** The [do ... while (currentBowler == previousBowler)] of [changeBowler].
    Every turn moves to the next index modulo [n]; after [n] turns every
    index has been tried, so fuel [n] runs out exactly when the source loop
    never ends. *)
Fixpoint changeBowler_loop (fuel : nat) (n prev cur : Z) : option Z :=
  match fuel with
  | O => None
  | S fuel' =>
      let cur' := (cur + 1) `mod` n in
      if cur' =? prev then changeBowler_loop fuel' n prev cur' else Some cur'
  end.

(** [changeBowler]; [% 0] on an empty bowling order is undefined.  The
    remainder is unsigned; [currentBowler] has just been used as an index
    when [playBall] comes here, so it is not negative. *)
Definition changeBowler (s : t) : option t :=
  let n := length (bowlingOrder s) in
  if decide (n = O) then None else
  cur ← changeBowler_loop n (Z.of_nat n) (currentBowler s) (currentBowler s);
  Some (withBowlers cur (currentBowler s) s).

(** What [printCommentary] dereferences: the striker and the bowler. *)
Definition printCommentary (s : t) : option (nat * nat) :=
  striker ← at_ (battingOrder s) (currentBatsman1 s);
  bowler ← at_ (bowlingOrder s) (currentBowler s);
  Some (striker, bowler).

(** [totalWickets++; playerWickets[bowler]++;] *)
Definition scoreWicket (bowler : nat) (s : t) : t :=
  mk (battingOrder s) (bowlingOrder s) (currentBatsman1 s) (currentBatsman2 s)
    (currentBowler s) (previousBowler s) (totalRuns s) (totalWickets s + 1)
    (totalOvers s) (totalBalls s) (currentOverBalls s)
    (playerRuns s) (bump bowler 1 (playerWickets s)).

(** [totalRuns += outcome; playerRuns[striker] += outcome;] *)
Definition scoreRuns (striker : nat) (outcome : Z) (s : t) : t :=
  mk (battingOrder s) (bowlingOrder s) (currentBatsman1 s) (currentBatsman2 s)
    (currentBowler s) (previousBowler s) (totalRuns s + outcome) (totalWickets s)
    (totalOvers s) (totalBalls s) (currentOverBalls s)
    (bump striker outcome (playerRuns s)) (playerWickets s).

(** [totalBalls++; currentOverBalls++;] *)
Definition nextBall (s : t) : t :=
  mk (battingOrder s) (bowlingOrder s) (currentBatsman1 s) (currentBatsman2 s)
    (currentBowler s) (previousBowler s) (totalRuns s) (totalWickets s)
    (totalOvers s) (totalBalls s + 1) (currentOverBalls s + 1)
    (playerRuns s) (playerWickets s).

(** [currentOverBalls = 0; totalOvers++;] *)
Definition endOver (s : t) : t :=
  mk (battingOrder s) (bowlingOrder s) (currentBatsman1 s) (currentBatsman2 s)
    (currentBowler s) (previousBowler s) (totalRuns s) (totalWickets s)
    (totalOvers s + 1) (totalBalls s) 0
    (playerRuns s) (playerWickets s).

(** The wicket branch of [playBall], up to [printCommentary]. *)
Definition wicketBall (s : t) (h : Heap) : option (t * Heap) :=
  bowler ← at_ (bowlingOrder s) (currentBowler s);
  let s1 := scoreWicket bowler s in
  h1 ← call Player.addWicket bowler h;
  h2 ← call Player.addBall bowler h1;
  let s2 := changeBatsman s1 in
  _ ← printCommentary s2;
  Some (s2, h2).

(** The runs branch of [playBall], up to [printCommentary]. *)
Definition runsBall (outcome : Z) (s : t) (h : Heap) : option (t * Heap) :=
  striker ← at_ (battingOrder s) (currentBatsman1 s);
  let s1 := scoreRuns striker outcome s in
  h1 ← call (Player.addRuns outcome) striker h;
  h2 ← call Player.addBall striker h1;
  let s2 := if Z.rem outcome 2 =? 1 then changeStrike s1 else s1 in
  _ ← printCommentary s2;
  Some (s2, h2).

(** The end of [playBall]: count the ball, for the innings and for the
    bowler, and change the bowler after six balls. *)
Definition countBall (s : t) (h : Heap) : option (t * Heap) :=
  let s1 := nextBall s in
  bowler ← at_ (bowlingOrder s1) (currentBowler s1);
  h1 ← call Player.addBall bowler h;
  if currentOverBalls s1 =? ballsPerOver then
    s2 ← changeBowler s1;
    Some (endOver s2, h1)
  else Some (s1, h1).

(** [playBall], given the outcome drawn for this ball. *)
Definition playBall (outcome : Z) (s : t) (h : Heap) : option (t * Heap) :=
  if isInningsComplete s then Some (s, h) else
  '(s1, h1) ← (if outcome =? 5 then wicketBall s h else runsBall outcome s h);
  countBall s1 h1.

(** [playBall] called once for each outcome of a list. *)
Fixpoint playBalls (outcomes : list Z) (s : t) (h : Heap) : option (t * Heap) :=
  match outcomes with
  | [] => Some (s, h)
  | o :: rest => '(s1, h1) ← playBall o s h; playBalls rest s1 h1
  end.

(** [while (!isInningsComplete()) playBall();] of [Match::playMatch].  The
    draws come from the front of [outcomes]; what is left of them is
    returned.  [None] also when the draws run out before the innings is
    complete. *)
Fixpoint play (outcomes : list Z) (s : t) (h : Heap) : option (t * Heap * list Z) :=
  if isInningsComplete s then Some (s, h, outcomes) else
  match outcomes with
  | [] => None
  | o :: rest => '(s1, h1) ← playBall o s h; play rest s1 h1
  end.

(** One linear scan of [getPlayerOfInnings]: a player replaces the best so
    far only with strictly more match credits. *)
Fixpoint scan (h : Heap) (v : list nat) (best : option nat) (maxCredits : Z)
    : option (option nat * Z) :=
  match v with
  | [] => Some (best, maxCredits)
  | pid :: rest =>
      p ← h !! pid;
      if maxCredits <? Player.getMatchCredits p
      then scan h rest (Some pid) (Player.getMatchCredits p)
      else scan h rest best maxCredits
  end.

(** [getPlayerOfInnings]: the batting order, then the bowling order.  The
    outer [option] is the definedness of the run, the inner one the
    pointer, [None] for [nullptr]. *)
Definition getPlayerOfInnings (h : Heap) (s : t) : option (option nat) :=
  '(best, maxCredits) ← scan h (battingOrder s) None (-1);
  '(best', _) ← scan h (bowlingOrder s) best maxCredits;
  Some best'.

End Innings.

(** ** Matches and the tournament loop *)

Module Match.

(** The two innings of class [Match]: team 1 bats in the first, team 2 in
    the second.  Both are built when the fixture is made, from the
    [playing5] of the two teams. *)
Record t := mk {
  innings1 : Innings.t;
  innings2 : Innings.t
}.

Definition new (team1 team2 : list nat) : t :=
  mk (Innings.new team1 team2) (Innings.new team2 team1).

(** The six names that [setupInnings] reads. *)
Record Names := mkNames {
  striker1 : string; nonStriker1 : string; bowler1 : string;
  striker2 : string; nonStriker2 : string; bowler2 : string
}.

Definition setupInnings (h : Heap) (n : Names) (m : t) : option t :=
  a ← Innings.setBatsmen h (striker1 n) (nonStriker1 n) (innings1 m);
  a' ← Innings.setBowler h (bowler1 n) a;
  b ← Innings.setBatsmen h (striker2 n) (nonStriker2 n) (innings2 m);
  b' ← Innings.setBowler h (bowler2 n) b;
  Some (mk a' b').

(** [calculatePlayerOfMatch]: the first innings' player only with strictly
    more match credits, the second innings' player otherwise.  Both
    pointers are dereferenced, so neither may be [nullptr]. *)
Definition calculatePlayerOfMatch (h : Heap) (m : t) : option nat :=
  o1 ← Innings.getPlayerOfInnings h (innings1 m);
  o2 ← Innings.getPlayerOfInnings h (innings2 m);
  player1 ← o1;
  player2 ← o2;
  p1 ← h !! player1;
  p2 ← h !! player2;
  Some (if Player.getMatchCredits p2 <? Player.getMatchCredits p1
        then player1 else player2).

(** [playMatch]: the first innings to its end, then the second, then the
    player of the match.  ([determineResult] and the summary touch the
    teams and the output only.)  Returns the match, its player, the store
    and the draws that are left. *)
Definition playMatch (outcomes : list Z) (m : t) (h : Heap)
    : option (t * nat * Heap * list Z) :=
  '(i1, h1, rest1) ← Innings.play outcomes (innings1 m) h;
  '(i2, h2, rest2) ← Innings.play rest1 (innings2 m) h1;
  let m' := mk i1 i2 in
  pom ← calculatePlayerOfMatch h2 m';
  Some (m', pom, h2, rest2).

End Match.

Module Tournament.

(** [generateFixtures]: every team against every later team, in order. *)
Fixpoint generateFixtures (teams : list (list nat)) : list Match.t :=
  match teams with
  | [] => []
  | ti :: later => map (Match.new ti) later ++ generateFixtures later
  end.

(** [playRound]: set the match up from the names typed in, and play it. *)
Definition playRound (n : Match.Names) (outcomes : list Z) (m : Match.t) (h : Heap)
    : option (Heap * list Z) :=
  m1 ← Match.setupInnings h n m;
  '(_, _, h', rest) ← Match.playMatch outcomes m1 h;
  Some (h', rest).

(** [playTournament] over the matches that are left, one set of names for
    each. *)
Fixpoint playRounds (ns : list Match.Names) (outcomes : list Z)
    (ms : list Match.t) (h : Heap) : option (Heap * list Z) :=
  match ms, ns with
  | [], _ => Some (h, outcomes)
  | m :: ms', n :: ns' =>
      '(h', rest) ← playRound n outcomes m h;
      playRounds ns' rest ms' h'
  | _ :: _, [] => None
  end.

End Tournament.

(** ** Teams *)

Module Team.

(** The state of class [Team]; [roster] and [playing5] hold pointers to the
    players. *)
Record t := mk {
  name : string;
  city : string;
  roster : list nat;
  playing5 : list nat;
  points : Z;
  matchesPlayed : Z;
  matchesWon : Z;
  matchesLost : Z;
  matchesTied : Z
}.

Definition new (n c : string) : t := mk n c [] [] 0 0 0 0 0.

(** [roster.push_back(player)] *)
Definition addPlayer (player : nat) (tm : t) : t :=
  mk (name tm) (city tm) (roster tm ++ [player]) (playing5 tm) (points tm)
    (matchesPlayed tm) (matchesWon tm) (matchesLost tm) (matchesTied tm).

(** [playing5 = roster] *)
Definition selectPlaying5 (tm : t) : t :=
  mk (name tm) (city tm) (roster tm) (roster tm) (points tm)
    (matchesPlayed tm) (matchesWon tm) (matchesLost tm) (matchesTied tm).

(** [Player::isBatsman] and [Player::isBowler], on the [type] field. *)
Definition isBatsman (p : Player.t) : bool :=
  match Player.getType p with
  | BATSMAN | ALLROUNDER => true
  | BOWLER => false
  end.

Definition isBowler (p : Player.t) : bool :=
  match Player.getType p with
  | BOWLER | ALLROUNDER => true
  | BATSMAN => false
  end.

(** The counting loop of [validatePlaying5]. *)
Fixpoint validate_loop (h : Heap) (v : list nat) (bowlers batsmen : Z) : option (Z * Z) :=
  match v with
  | [] => Some (bowlers, batsmen)
  | pid :: rest =>
      p ← h !! pid;
      validate_loop h rest
        (if isBowler p then bowlers + 1 else bowlers)
        (if isBatsman p then batsmen + 1 else batsmen)
  end.

(** [validatePlaying5]: [bowlers >= 2 && batsmen >= 2]. *)
Definition validatePlaying5 (h : Heap) (tm : t) : option bool :=
  '(bowlers, batsmen) ← validate_loop h (playing5 tm) 0 0;
  Some ((2 <=? bowlers) && (2 <=? batsmen)).

(** [points += pts] *)
Definition addPoints (pts : Z) (tm : t) : t :=
  mk (name tm) (city tm) (roster tm) (playing5 tm) (points tm + pts)
    (matchesPlayed tm) (matchesWon tm) (matchesLost tm) (matchesTied tm).

(** [updateMatchResult]: one more match played, and one more won, lost or
    tied; [NO_RESULT] counts as played only. *)
Definition updateMatchResult (result : MatchResult) (tm : t) : t :=
  match result with
  | WIN =>
      mk (name tm) (city tm) (roster tm) (playing5 tm) (points tm)
        (matchesPlayed tm + 1) (matchesWon tm + 1) (matchesLost tm) (matchesTied tm)
  | LOSS =>
      mk (name tm) (city tm) (roster tm) (playing5 tm) (points tm)
        (matchesPlayed tm + 1) (matchesWon tm) (matchesLost tm + 1) (matchesTied tm)
  | TIE =>
      mk (name tm) (city tm) (roster tm) (playing5 tm) (points tm)
        (matchesPlayed tm + 1) (matchesWon tm) (matchesLost tm) (matchesTied tm + 1)
  | NO_RESULT =>
      mk (name tm) (city tm) (roster tm) (playing5 tm) (points tm)
        (matchesPlayed tm + 1) (matchesWon tm) (matchesLost tm) (matchesTied tm)
  end.

(** The loop of [findPlayer]: the first player with the name; the inner
    [None] is [nullptr]. *)
Fixpoint findPlayer_loop (h : Heap) (playerName : string) (v : list nat)
    : option (option nat) :=
  match v with
  | [] => Some None
  | pid :: rest =>
      p ← h !! pid;
      if String.eqb (Player.getName p) playerName then Some (Some pid)
      else findPlayer_loop h playerName rest
  end.

Definition findPlayer (h : Heap) (playerName : string) (tm : t) : option (option nat) :=
  findPlayer_loop h playerName (playing5 tm).

End Team.

(** The store of [Team] objects; a [Team*] is an index. *)
Abbreviation Teams := (list Team.t).

Definition callTeam (f : Team.t → Team.t) (tid : nat) (ts : Teams) : option Teams :=
  tm ← ts !! tid; Some (<[tid := f tm]> ts).

(** ** The result of a match *)

Module Scoring.

(** [Match::determineResult], for the match [m] between the teams [team1]
    and [team2]: the result, seen from team 1, and the teams with their
    counters and points updated. *)
Definition determineResult (m : Match.t) (team1 team2 : nat) (ts : Teams)
    : option (MatchResult * Teams) :=
  let score1 := Innings.totalRuns (Match.innings1 m) in
  let score2 := Innings.totalRuns (Match.innings2 m) in
  if score2 <? score1 then
    ts1 ← callTeam (Team.updateMatchResult WIN) team1 ts;
    ts2 ← callTeam (Team.updateMatchResult LOSS) team2 ts1;
    ts3 ← callTeam (Team.addPoints 2) team1 ts2;
    Some (WIN, ts3)
  else if score1 <? score2 then
    ts1 ← callTeam (Team.updateMatchResult LOSS) team1 ts;
    ts2 ← callTeam (Team.updateMatchResult WIN) team2 ts1;
    ts3 ← callTeam (Team.addPoints 2) team2 ts2;
    Some (LOSS, ts3)
  else
    ts1 ← callTeam (Team.updateMatchResult TIE) team1 ts;
    ts2 ← callTeam (Team.updateMatchResult TIE) team2 ts1;
    ts3 ← callTeam (Team.addPoints 1) team1 ts2;
    ts4 ← callTeam (Team.addPoints 1) team2 ts3;
    Some (TIE, ts4).

(** [Match::getWinner]; [None] is [nullptr], for a tie or no result. *)
Definition getWinner (result : MatchResult) (team1 team2 : nat) : option nat :=
  match result with
  | WIN => Some team1
  | LOSS => Some team2
  | _ => None
  end.

End Scoring.

(** ** The award scans of [Statistics] and [Tournament] *)

Module Statistics.

(** The linear scan the three award functions share, for the credits that
    [get] reads: a player replaces the best so far only with strictly
    more. *)
Fixpoint scanBy (get : Player.t → Z) (h : Heap) (v : list nat)
    (best : option nat) (maxCredits : Z) : option (option nat * Z) :=
  match v with
  | [] => Some (best, maxCredits)
  | pid :: rest =>
      p ← h !! pid;
      if maxCredits <? get p
      then scanBy get h rest (Some pid) (get p)
      else scanBy get h rest best maxCredits
  end.

(** [Statistics::getPlayerOfMatch]: by match credits, from [nullptr] and
    [-1]. *)
Definition getPlayerOfMatch (h : Heap) (players : list nat) : option (option nat) :=
  '(best, _) ← scanBy Player.getMatchCredits h players None (-1);
  Some best.

(** [Statistics::getPlayerOfTournament], and [Tournament::getPlayerOfTournament]
    on [allPlayers]: by career credits. *)
Definition getPlayerOfTournament (h : Heap) (players : list nat) : option (option nat) :=
  '(best, _) ← scanBy Player.getTotalCredits h players None (-1);
  Some best.

End Statistics.

(** ** A tournament to run the engine on

    Four teams of five, as [createTeams] and [createPlayers] build them;
    player [5 * t + i] is player [i] of team [t].  In every team the first
    two players are batsmen, the next two bowlers and the last one an
    all-rounder. *)
Module Sample.

Definition squad (t : string) : Heap :=
  [ Player.newBatsman (t +:+ "1") 30;
    Player.newBatsman (t +:+ "2") 28;
    Player.newBowler (t +:+ "3") 27;
    Player.newBowler (t +:+ "4") 25;
    Player.newAllRounder (t +:+ "5") 31 ].

Definition allPlayers : Heap := squad "a" ++ squad "b" ++ squad "c" ++ squad "d".

Definition teams : list (list nat) :=
  [ [0; 1; 2; 3; 4]; [5; 6; 7; 8; 9]; [10; 11; 12; 13; 14]; [15; 16; 17; 18; 19] ]%nat.

Definition matches : list Match.t := Tournament.generateFixtures teams.

(** The first innings of the first match: team a bats, team b bowls. *)
Definition first : Innings.t := Innings.new [0; 1; 2; 3; 4]%nat [5; 6; 7; 8; 9]%nat.

(** The same innings opened by the last two batsmen of the order, as
    [setBatsmen] leaves it for the names a4 and a5. *)
Definition lastPair : Innings.t := Innings.withBatsmen 3 4 first.

(** The same innings with the bowler b3 (a [Bowler]) to open, as [setBowler]
    leaves it. *)
Definition bowlerB3 : Innings.t := Innings.withBowlers 2 (-1) first.

(** The first two fixtures: a against b, then a against c. *)
Definition match1 : Match.t := Match.new [0; 1; 2; 3; 4]%nat [5; 6; 7; 8; 9]%nat.
Definition match2 : Match.t := Match.new [0; 1; 2; 3; 4]%nat [10; 11; 12; 13; 14]%nat.

(** The names typed in for them: the bowlers b3, c3 and a3 open. *)
Definition names1 : Match.Names := Match.mkNames "a1" "a2" "b3" "b1" "b2" "a3".
Definition names2 : Match.Names := Match.mkNames "a1" "a2" "c3" "c1" "c2" "a3".

(** The draws of one match: a wicket on the first ball of each innings and
    dot balls after it, and the draws of a match of dot balls only. *)
Definition wicketFirst : list Z := 5 :: replicate 11 0 ++ 5 :: replicate 11 0.
Definition dotsFirstInnings : list Z := replicate 12 0 ++ 5 :: replicate 11 0.

End Sample.

(** * Vocabulary of the properties *)

Import Innings.

(** ** Well-formed innings

    What the constructor and the setup establish and every ball keeps: the
    pointers of both orders are in the store, the three indices are in
    range, there are at least two bowlers to alternate, and the ball
    counter of the over is below six. *)
Definition wf (s : Innings.t) (h : Heap) : Prop :=
  Forall (λ pid, (pid < length h)%nat) (battingOrder s) ∧
  Forall (λ pid, (pid < length h)%nat) (bowlingOrder s) ∧
  (2 ≤ length (bowlingOrder s))%nat ∧
  (0 ≤ currentBatsman1 s < Z.of_nat (length (battingOrder s))) ∧
  (0 ≤ currentBatsman2 s < Z.of_nat (length (battingOrder s))) ∧
  (0 ≤ currentBowler s < Z.of_nat (length (bowlingOrder s))) ∧
  (0 ≤ currentOverBalls s < ballsPerOver).

#[global] Instance wf_dec s h : Decision (wf s h).
Proof. unfold wf. apply _. Defined.

(** Balls left before the over limit. *)
Definition remaining (s : Innings.t) : Z :=
  (maxOvers - totalOvers s) * ballsPerOver - currentOverBalls s.

(** A closed decidable side condition, by evaluation. *)
Ltac by_compute := apply (bool_decide_unpack _); vm_compute; exact I.

(** What the last lines of [playBall] make of the innings once the ball is
    counted: after the sixth ball the next bowler comes on. *)
Definition overEnd (s : Innings.t) : Innings.t :=
  if currentOverBalls s =? ballsPerOver then
    endOver (withBowlers
               ((currentBowler s + 1) `mod` Z.of_nat (length (bowlingOrder s)))
               (currentBowler s) s)
  else s.

(** The strike after a ball of [outcome] runs. *)
Definition strikeAfter (outcome : Z) (s : Innings.t) : Innings.t :=
  if Z.rem outcome 2 =? 1 then changeStrike s else s.

(** The bowler index of every over that is completed while [outcomes] are
    played: an over is completed by the ball that raises [totalOvers], and it
    was bowled by the bowler current before that ball. *)
Fixpoint overBowlers (outcomes : list Z) (s : Innings.t) (h : Heap) : list Z :=
  match outcomes with
  | [] => []
  | o :: rest =>
      match playBall o s h with
      | None => []
      | Some (s1, h1) =>
          (if totalOvers s <? totalOvers s1 then [currentBowler s] else [])
            ++ overBowlers rest s1 h1
      end
  end.

(** No player of the vector [v] has the name [n]. *)
Definition absent (h : Heap) (n : string) (v : list nat) : Prop :=
  ∀ pid p, pid ∈ v → h !! pid = Some p → Player.getName p ≠ n.

(** The match credits of the player behind a pointer. *)
Definition credit (h : Heap) (pid : nat) : Z :=
  from_option Player.getMatchCredits 0 (h !! pid).

(** [pid] is the first player of [v] whose match credits are the highest of
    [v]. *)
Definition firstBest (h : Heap) (v : list nat) (pid : nat) : Prop :=
  ∃ i : nat,
    v !! i = Some pid ∧
    (∀ j q, v !! j = Some q → credit h q ≤ credit h pid) ∧
    (∀ j q, (j < i)%nat → v !! j = Some q → credit h q < credit h pid).

(** Career credits less match credits: what the player had earned before
    the match credits began to count. *)
Definition creditGap (p : Player.t) : Z :=
  Player.getTotalCredits p - Player.getMatchCredits p.

(** Every pointer of [v] is in the store. *)
Definition inStore (h : Heap) (v : list nat) : Prop :=
  Forall (λ pid, (pid < length h)%nat) v.

(** The sum of the entries of a [std::map] of per-player counts. *)
Definition sumMap (m : gmap nat Z) : Z := map_fold (λ _ v acc, v + acc) 0 m.

(** The runs of a list of outcomes; the wicket, 5, brings none. *)
Definition runsOf (os : list Z) : Z :=
  foldr (λ o acc, (if o =? 5 then 0 else o) + acc) 0 os.

(** The wickets of a list of outcomes. *)
Definition wicketsOf (os : list Z) : Z :=
  foldr (λ o acc, (if o =? 5 then 1 else 0) + acc) 0 os.

(** The points of all the teams together. *)
Definition totalPoints (ts : Teams) : Z := foldr (λ tm acc, Team.points tm + acc) 0 ts.

(** The books of a team agree: two points a win, one a tie, and every match
    played is won, lost or tied. *)
Definition booksAgree (tm : Team.t) : Prop :=
  Team.points tm = 2 * Team.matchesWon tm + Team.matchesTied tm ∧
  Team.matchesPlayed tm = Team.matchesWon tm + Team.matchesLost tm + Team.matchesTied tm.

(** [pid] is the first player of [v] for whom [get] is the highest of
    [v]. *)
Definition firstBestBy (get : Player.t → Z) (h : Heap) (v : list nat) (pid : nat) : Prop :=
  ∃ (i : nat) (p : Player.t),
    v !! i = Some pid ∧ h !! pid = Some p ∧
    (∀ j q pq, v !! j = Some q → h !! q = Some pq → get pq ≤ get p) ∧
    (∀ j q pq, (j < i)%nat → v !! j = Some q → h !! q = Some pq → get pq < get p).

(** Credits are sound in a store: no player has negative match credits or
    more match credits than career credits. *)
Definition creditsSound (h : Heap) : Prop :=
  Forall (λ p, 0 ≤ Player.getMatchCredits p ≤ Player.getTotalCredits p) h.

(** The class whose [addWicket] updates the credits: [Bowler] alone. *)
Definition earnsWicketCredit (p : Player.t) : bool :=
  match p with
  | Player.Bowler _ _ => true
  | _ => false
  end.

(** What a wicket ([o] is 5) bowled by [bw], an object [pb], brings the
    player [q] in credits. *)
Definition creditEarned (o : Z) (bw : nat) (pb : Player.t) (q : nat) : Z :=
  if (o =? 5) && bool_decide (q = bw) && earnsWicketCredit pb then 1 else 0.

(** * Properties *)

(** ** Vector access, method calls and the bowler change *)

Lemma at_Some (v : list nat) (i : Z) :
  0 ≤ i < Z.of_nat (length v) →
  ∃ pid, at_ v i = Some pid ∧ v !! Z.to_nat i = Some pid.
Proof.
  intros Hi. unfold at_.
  destruct (Z.ltb_spec i 0) as [?|_]; [lia|].
  destruct (lookup_lt_is_Some_2 v (Z.to_nat i)) as [pid Hpid]; [lia|].
  exists pid. by rewrite Hpid.
Qed.

Lemma at_inv (v : list nat) (i : Z) (pid : nat) :
  at_ v i = Some pid → 0 ≤ i < Z.of_nat (length v) ∧ v !! Z.to_nat i = Some pid.
Proof.
  unfold at_. destruct (Z.ltb_spec i 0) as [Hneg|Hpos]; [done|].
  intros Hl. split; [|done]. apply lookup_lt_Some in Hl. lia.
Qed.

Lemma call_eq (f : Player.t → Player.t) (pid : nat) (h : Heap) (p : Player.t) :
  h !! pid = Some p → call f pid h = Some (<[pid := f p]> h).
Proof. intros H. unfold call. by rewrite H. Qed.

Lemma call_inv (f : Player.t → Player.t) (pid : nat) (h h' : Heap) :
  call f pid h = Some h' → ∃ p, h !! pid = Some p ∧ h' = <[pid := f p]> h.
Proof.
  unfold call. destruct (h !! pid) as [p|] eqn:E; [|done].
  simpl. intros [= <-]. eauto.
Qed.

Lemma changeBowler_loop_step (fuel : nat) (n cur : Z) :
  2 ≤ n → 0 ≤ cur < n →
  changeBowler_loop (S fuel) n cur cur = Some ((cur + 1) `mod` n) ∧
  (cur + 1) `mod` n ≠ cur ∧ 0 ≤ (cur + 1) `mod` n < n.
Proof.
  intros Hn Hc.
  assert (Hne : (cur + 1) `mod` n ≠ cur).
  { destruct (Z.eq_dec (cur + 1) n) as [E|Hd].
    - rewrite E, Z.mod_same by lia. lia.
    - rewrite Z.mod_small by lia. lia. }
  split; [|split; [done|apply Z.mod_pos_bound; lia]].
  simpl. destruct (Z.eqb_spec ((cur + 1) `mod` n) cur); [done|done].
Qed.

Lemma changeBowler_eq (s : Innings.t) :
  (2 ≤ length (bowlingOrder s))%nat →
  0 ≤ currentBowler s < Z.of_nat (length (bowlingOrder s)) →
  let next := (currentBowler s + 1) `mod` Z.of_nat (length (bowlingOrder s)) in
  changeBowler s = Some (withBowlers next (currentBowler s) s) ∧
  next ≠ currentBowler s ∧ 0 ≤ next < Z.of_nat (length (bowlingOrder s)).
Proof.
  intros Hn Hc next. unfold changeBowler.
  destruct (decide (length (bowlingOrder s) = 0%nat)) as [E|_]; [lia|].
  destruct (length (bowlingOrder s)) as [|k] eqn:E; [lia|].
  destruct (changeBowler_loop_step k (Z.of_nat (S k)) (currentBowler s)) as (H1 & H2 & H3);
    [lia|lia|].
  rewrite H1. simpl. done.
Qed.

(** ** One ball, in closed form *)

Lemma wf_heap (s : Innings.t) (h h' : Heap) :
  length h' = length h → wf s h → wf s h'.
Proof. unfold wf. intros ->. done. Qed.

Lemma wf_changeBatsman (s : Innings.t) (h : Heap) :
  wf s h → wf (changeBatsman s) h.
Proof.
  unfold wf, changeBatsman. intros (?&?&?&?&?&?&?).
  repeat case_match; simpl; repeat split; try done; lia.
Qed.

Lemma wf_scoreWicket (bw : nat) (s : Innings.t) (h : Heap) :
  wf s h → wf (scoreWicket bw s) h.
Proof. done. Qed.

Lemma wf_scoreRuns (st : nat) (o : Z) (s : Innings.t) (h : Heap) :
  wf s h → wf (scoreRuns st o s) h.
Proof. done. Qed.

Lemma wf_strikeAfter (o : Z) (s : Innings.t) (h : Heap) :
  wf s h → wf (strikeAfter o s) h.
Proof.
  unfold wf, strikeAfter, changeStrike. intros (?&?&?&?&?&?&?).
  case_match; simpl; repeat split; try done; lia.
Qed.

Lemma wf_overEnd_nextBall (s : Innings.t) (h : Heap) :
  wf s h → wf (overEnd (nextBall s)) h.
Proof.
  unfold wf, overEnd. intros (?&?&?&?&?&?&?). simpl.
  destruct (Z.eqb_spec (currentOverBalls s + 1) ballsPerOver); simpl.
  - repeat split; try done; try lia; try (unfold ballsPerOver; lia);
      apply Z.mod_pos_bound; lia.
  - repeat split; try done; lia.
Qed.

Lemma printCommentary_Some (s : Innings.t) (h : Heap) :
  wf s h → ∃ e, printCommentary s = Some e.
Proof.
  intros (?&?&?&?&?&?&?). unfold printCommentary.
  destruct (at_Some (battingOrder s) (currentBatsman1 s)) as (a & -> & _); [done|].
  destruct (at_Some (bowlingOrder s) (currentBowler s)) as (b & -> & _); [done|].
  simpl. eauto.
Qed.

Lemma wf_lookup_bowler (s : Innings.t) (h : Heap) :
  wf s h →
  ∃ bw p, at_ (bowlingOrder s) (currentBowler s) = Some bw ∧ h !! bw = Some p.
Proof.
  intros (_&Hb&_&_&_&Hc&_).
  destruct (at_Some _ _ Hc) as (bw & E & El). exists bw.
  rewrite Forall_lookup in Hb. specialize (Hb _ _ El).
  destruct (lookup_lt_is_Some_2 h bw Hb) as [p Hp]. eauto.
Qed.

Lemma wf_lookup_striker (s : Innings.t) (h : Heap) :
  wf s h →
  ∃ st p, at_ (battingOrder s) (currentBatsman1 s) = Some st ∧ h !! st = Some p.
Proof.
  intros (Hb&_&_&Hc&_).
  destruct (at_Some _ _ Hc) as (st & E & El). exists st.
  rewrite Forall_lookup in Hb. specialize (Hb _ _ El).
  destruct (lookup_lt_is_Some_2 h st Hb) as [p Hp]. eauto.
Qed.

Lemma countBall_eq (s : Innings.t) (h : Heap) (bw : nat) (p : Player.t) :
  wf s h →
  at_ (bowlingOrder s) (currentBowler s) = Some bw → h !! bw = Some p →
  countBall s h = Some (overEnd (nextBall s), <[bw := Player.addBall p]> h).
Proof.
  intros Hwf Ebw Ep. unfold countBall, overEnd. simpl.
  rewrite Ebw. simpl. rewrite (call_eq _ _ _ _ Ep). simpl.
  destruct (Z.eqb_spec (currentOverBalls s + 1) ballsPerOver); [|done].
  destruct Hwf as (?&?&?&?&?&?&?).
  destruct (changeBowler_eq (nextBall s)) as (-> & _); done.
Qed.

(** A wicket: the bowler gets [addWicket] and [addBall] in the branch and
    [addBall] once more when the ball is counted. *)
Lemma playBall_wicket_eq (s : Innings.t) (h : Heap) :
  wf s h → isInningsComplete s = false →
  ∃ bw p,
    at_ (bowlingOrder s) (currentBowler s) = Some bw ∧ h !! bw = Some p ∧
    playBall 5 s h =
      Some (overEnd (nextBall (changeBatsman (scoreWicket bw s))),
            <[bw := Player.addBall (Player.addBall (Player.addWicket p))]> h).
Proof.
  intros Hwf Hc.
  destruct (wf_lookup_bowler _ _ Hwf) as (bw & p & Ebw & Ep).
  exists bw, p. split; [done|]. split; [done|].
  pose proof (lookup_lt_Some _ _ _ Ep) as Hlt.
  unfold playBall. rewrite Hc. simpl. unfold wicketBall.
  rewrite Ebw. simpl. rewrite (call_eq _ _ _ _ Ep). simpl.
  rewrite (call_eq _ bw _ (Player.addWicket p)) by (by apply list_lookup_insert_eq).
  simpl. rewrite list_insert_insert_eq.
  assert (Hwf2 : wf (changeBatsman (scoreWicket bw s))
                   (<[bw := Player.addBall (Player.addWicket p)]> h)).
  { apply wf_heap with h; [by rewrite length_insert|].
    by apply wf_changeBatsman, wf_scoreWicket. }
  destruct (printCommentary_Some _ _ Hwf2) as [e ->]. simpl.
  rewrite (countBall_eq _ _ bw (Player.addBall (Player.addWicket p)) Hwf2).
  - by rewrite list_insert_insert_eq.
  - unfold changeBatsman, scoreWicket. repeat case_match; simpl; done.
  - by apply list_lookup_insert_eq.
Qed.

(** Runs: the striker gets [addRuns] and [addBall], the bowler [addBall]. *)
Lemma playBall_runs_eq (o : Z) (s : Innings.t) (h : Heap) :
  wf s h → isInningsComplete s = false → o ≠ 5 →
  ∃ st ps bw pb,
    at_ (battingOrder s) (currentBatsman1 s) = Some st ∧ h !! st = Some ps ∧
    at_ (bowlingOrder s) (currentBowler s) = Some bw ∧
    <[st := Player.addBall (Player.addRuns o ps)]> h !! bw = Some pb ∧
    playBall o s h =
      Some (overEnd (nextBall (strikeAfter o (scoreRuns st o s))),
            <[bw := Player.addBall pb]>
              (<[st := Player.addBall (Player.addRuns o ps)]> h)).
Proof.
  intros Hwf Hc Ho.
  destruct (wf_lookup_striker _ _ Hwf) as (st & ps & Est & Eps).
  pose proof (lookup_lt_Some _ _ _ Eps) as Hlt.
  set (h2 := <[st := Player.addBall (Player.addRuns o ps)]> h).
  assert (Hwf2 : wf (strikeAfter o (scoreRuns st o s)) h2).
  { apply wf_heap with h; [by unfold h2; rewrite length_insert|].
    by apply wf_strikeAfter, wf_scoreRuns. }
  destruct (wf_lookup_bowler _ _ Hwf2) as (bw & pb & Ebw & Epb).
  assert (Ebw' : at_ (bowlingOrder s) (currentBowler s) = Some bw).
  { revert Ebw. unfold strikeAfter. case_match; done. }
  exists st, ps, bw, pb. repeat (split; [done|]).
  unfold playBall. rewrite Hc. simpl.
  destruct (Z.eqb_spec o 5) as [?|_]; [done|].
  unfold runsBall. rewrite Est. simpl. rewrite (call_eq _ _ _ _ Eps). simpl.
  rewrite (call_eq _ st _ (Player.addRuns o ps)) by (by apply list_lookup_insert_eq).
  simpl. rewrite list_insert_insert_eq. fold h2.
  fold (strikeAfter o (scoreRuns st o s)).
  destruct (printCommentary_Some _ _ Hwf2) as [e ->]. simpl.
  by rewrite (countBall_eq _ _ bw pb Hwf2 Ebw Epb).
Qed.

(** ** Progress of the innings *)

Lemma overEnd_nextBall_counts (s : Innings.t) :
  0 ≤ currentOverBalls s < ballsPerOver →
  let s' := overEnd (nextBall s) in
  remaining s' = remaining s - 1 ∧
  totalWickets s' = totalWickets s ∧
  totalOvers s ≤ totalOvers s' ≤ totalOvers s + 1 ∧
  totalBalls s' = totalBalls s + 1 ∧
  totalRuns s' = totalRuns s.
Proof.
  intros Hb. unfold overEnd, remaining. simpl.
  destruct (Z.eqb_spec (currentOverBalls s + 1) ballsPerOver); simpl;
    unfold ballsPerOver in *; repeat split; lia.
Qed.

Lemma changeBatsman_counts (s : Innings.t) :
  totalWickets (changeBatsman s) = totalWickets s ∧
  totalOvers (changeBatsman s) = totalOvers s ∧
  totalBalls (changeBatsman s) = totalBalls s ∧
  totalRuns (changeBatsman s) = totalRuns s ∧
  currentOverBalls (changeBatsman s) = currentOverBalls s ∧
  remaining (changeBatsman s) = remaining s.
Proof. unfold changeBatsman, remaining. repeat case_match; done. Qed.

Lemma strikeAfter_counts (o : Z) (s : Innings.t) :
  totalWickets (strikeAfter o s) = totalWickets s ∧
  totalOvers (strikeAfter o s) = totalOvers s ∧
  totalBalls (strikeAfter o s) = totalBalls s ∧
  totalRuns (strikeAfter o s) = totalRuns s ∧
  currentOverBalls (strikeAfter o s) = currentOverBalls s ∧
  remaining (strikeAfter o s) = remaining s.
Proof. unfold strikeAfter, remaining. case_match; done. Qed.

(** A ball played on an innings that is not complete is always defined,
    keeps the innings well formed, uses up one of the balls that are left
    and takes at most one wicket. *)
Lemma playBall_progress (o : Z) (s : Innings.t) (h : Heap) :
  wf s h → isInningsComplete s = false →
  ∃ s' h',
    playBall o s h = Some (s', h') ∧ wf s' h' ∧
    remaining s' = remaining s - 1 ∧
    totalWickets s ≤ totalWickets s' ≤ totalWickets s + 1 ∧
    totalOvers s ≤ totalOvers s' ≤ totalOvers s + 1 ∧
    totalBalls s' = totalBalls s + 1.
Proof.
  intros Hwf Hc.
  destruct (Z.eq_dec o 5) as [->|Ho].
  - destruct (playBall_wicket_eq s h Hwf Hc) as (bw & p & _ & _ & ->).
    eexists _, _. split; [done|].
    pose proof (wf_changeBatsman _ _ (wf_scoreWicket bw _ _ Hwf)) as Hwf1.
    split.
    { apply wf_heap with h; [by rewrite length_insert|].
      by apply wf_overEnd_nextBall. }
    destruct (overEnd_nextBall_counts (changeBatsman (scoreWicket bw s)))
      as (E1 & E2 & E3 & E4 & _); [apply Hwf1|].
    destruct (changeBatsman_counts (scoreWicket bw s)) as (F1 & F2 & F3 & _ & _ & F6).
    rewrite E1, E2, E4, F1, F3, F6. rewrite F2 in E3.
    unfold remaining. simpl in *. lia.
  - destruct (playBall_runs_eq o s h Hwf Hc Ho) as (st & ps & bw & pb & _ & _ & _ & _ & ->).
    eexists _, _. split; [done|].
    pose proof (wf_strikeAfter o _ _ (wf_scoreRuns st o _ _ Hwf)) as Hwf1.
    split.
    { apply wf_heap with h; [by rewrite !length_insert|].
      by apply wf_overEnd_nextBall. }
    destruct (overEnd_nextBall_counts (strikeAfter o (scoreRuns st o s)))
      as (E1 & E2 & E3 & E4 & _); [apply Hwf1|].
    destruct (strikeAfter_counts o (scoreRuns st o s)) as (F1 & F2 & F3 & _ & _ & F6).
    rewrite E1, E2, E4, F1, F3, F6. rewrite F2 in E3.
    unfold remaining. simpl in *. lia.
Qed.

(** On a complete innings [playBall] returns at once. *)
Lemma playBall_complete (o : Z) (s : Innings.t) (h : Heap) :
  isInningsComplete s = true → playBall o s h = Some (s, h).
Proof. intros Hc. unfold playBall. by rewrite Hc. Qed.

Lemma playBalls_complete (os : list Z) (s : Innings.t) (h : Heap) :
  isInningsComplete s = true → playBalls os s h = Some (s, h).
Proof.
  intros Hc. induction os as [|o os IH]; [done|].
  simpl. rewrite (playBall_complete o s h Hc). done.
Qed.

Lemma isInningsComplete_false (s : Innings.t) :
  isInningsComplete s = false ↔ totalWickets s < maxWickets ∧ totalOvers s < maxOvers.
Proof.
  unfold isInningsComplete. rewrite orb_false_iff, !Z.leb_gt. done.
Qed.

(** From any well-formed state within the limits, the innings is complete
    after at most [remaining] balls, whatever is drawn. *)
Lemma playBalls_reaches_complete (os : list Z) :
  ∀ (s : Innings.t) (h : Heap),
    wf s h → totalWickets s ≤ maxWickets → totalOvers s ≤ maxOvers →
    remaining s ≤ Z.of_nat (length os) →
    ∃ (n : nat) (s' : Innings.t) (h' : Heap),
      (n ≤ length os)%nat ∧
      playBalls (take n os) s h = Some (s', h') ∧
      playBalls os s h = Some (s', h') ∧
      isInningsComplete s' = true ∧
      totalWickets s' ≤ maxWickets ∧ totalOvers s' ≤ maxOvers.
Proof.
  induction os as [|o os IH]; intros s h Hwf Hw Hv Hr.
  - exists 0%nat, s, h. simpl in *. repeat split; try done.
    unfold isInningsComplete. apply orb_true_iff. right. apply Z.leb_le.
    destruct Hwf as (_&_&_&_&_&_&Hb).
    unfold remaining, ballsPerOver, maxOvers in *. lia.
  - destruct (isInningsComplete s) eqn:Hc.
    + exists 0%nat, s, h. rewrite (playBalls_complete (o :: os)) by done.
      simpl. repeat split; try done. lia.
    + destruct (playBall_progress o s h Hwf Hc) as (s1 & h1 & E & Hwf1 & Er & Ew & Eo & _).
      apply isInningsComplete_false in Hc as [Hc1 Hc2].
      destruct (IH s1 h1 Hwf1) as (n & s' & h' & Hn & E1 & E2 & Hd & Hw' & Hv');
        [lia|lia|simpl in Hr; lia|].
      exists (S n), s', h'. simpl. rewrite E. simpl.
      repeat split; try done. lia.
Qed.

(** The loop of [playMatch] ends, with the innings complete, when enough
    draws are supplied. *)
Lemma play_total (os : list Z) :
  ∀ (s : Innings.t) (h : Heap),
    wf s h → remaining s ≤ Z.of_nat (length os) →
    ∃ s' h' rest,
      play os s h = Some (s', h', rest) ∧ wf s' h' ∧ isInningsComplete s' = true.
Proof.
  induction os as [|o os IH]; intros s h Hwf Hr.
  - destruct (isInningsComplete s) eqn:Hc.
    + exists s, h, []. simpl. by rewrite Hc.
    + apply isInningsComplete_false in Hc as [_ Hc2].
      destruct Hwf as (_&_&_&_&_&_&Hb).
      unfold remaining, ballsPerOver, maxOvers in *. simpl in Hr. lia.
  - destruct (isInningsComplete s) eqn:Hc.
    + exists s, h, (o :: os). simpl. by rewrite Hc.
    + destruct (playBall_progress o s h Hwf Hc) as (s1 & h1 & E & Hwf1 & Er & _).
      destruct (IH s1 h1 Hwf1) as (s' & h' & rest & E1 & Hwf' & Hd);
        [simpl in Hr; lia|].
      exists s', h', rest. simpl. rewrite Hc, E. simpl. done.
Qed.

(** ** Termination (C5) *)

(** C5.  The source has one configuration, [maxWickets = 2], [maxOvers = 2]
    and [ballsPerOver = 6], both limits at least one.  From the initial
    state of a well-formed innings (no wicket, no over, no ball of an over
    yet) and for every sequence of [maxOvers * ballsPerOver] outcomes, the
    innings is complete after some [n] of the steps, [n] at most
    [maxOvers * ballsPerOver]; the steps after that change nothing; and at
    completion the wickets are at most [maxWickets] and the completed overs
    at most [maxOvers]. *)
Theorem innings_terminates (os : list Z) (s : Innings.t) (h : Heap) :
  wf s h →
  totalWickets s = 0 → totalOvers s = 0 → currentOverBalls s = 0 →
  length os = Z.to_nat (maxOvers * ballsPerOver) →
  ∃ (n : nat) (s' : Innings.t) (h' : Heap),
    (n ≤ Z.to_nat (maxOvers * ballsPerOver))%nat ∧
    playBalls (take n os) s h = Some (s', h') ∧
    playBalls os s h = Some (s', h') ∧
    isInningsComplete s' = true ∧
    totalWickets s' ≤ maxWickets ∧ totalOvers s' ≤ maxOvers.
Proof.
  intros Hwf Hw Ho Hb Hlen.
  destruct (playBalls_reaches_complete os s h Hwf) as (n & s' & h' & Hn & E1 & E2 & Hc & Hw' & Ho').
  - rewrite Hw. unfold maxWickets. lia.
  - rewrite Ho. unfold maxOvers. lia.
  - unfold remaining. rewrite Ho, Hb, Hlen. lia.
  - exists n, s', h'. rewrite <- Hlen. done.
Qed.

Lemma innings_terminates_witness :
  ∃ (n : nat) (s' : Innings.t) (h' : Heap),
    (n ≤ Z.to_nat (maxOvers * ballsPerOver))%nat ∧
    playBalls (take n [4; 1; 0; 6; 5; 2; 1; 1; 0; 4; 6; 5]) Sample.first Sample.allPlayers
      = Some (s', h') ∧
    playBalls [4; 1; 0; 6; 5; 2; 1; 1; 0; 4; 6; 5] Sample.first Sample.allPlayers
      = Some (s', h') ∧
    isInningsComplete s' = true ∧
    totalWickets s' ≤ maxWickets ∧ totalOvers s' ≤ maxOvers.
Proof.
  apply (innings_terminates [4; 1; 0; 6; 5; 2; 1; 1; 0; 4; 6; 5]
           Sample.first Sample.allPlayers).
  - by_compute.
  - reflexivity.
  - reflexivity.
  - reflexivity.
  - reflexivity.
Defined.

(** ** The bowler of consecutive overs (C8) *)

(** A ball either leaves the over count and the bowler as they are, or
    completes an over and brings on a different bowler. *)
Lemma playBall_bowler (o : Z) (s : Innings.t) (h : Heap) :
  wf s h →
  ∃ s' h',
    playBall o s h = Some (s', h') ∧ wf s' h' ∧
    ((totalOvers s' = totalOvers s ∧ currentBowler s' = currentBowler s) ∨
     (totalOvers s' = totalOvers s + 1 ∧ currentBowler s' ≠ currentBowler s ∧
      previousBowler s' = currentBowler s)).
Proof.
  intros Hwf.
  assert (Hend : ∀ s0, wf s0 h →
    (totalOvers (overEnd (nextBall s0)) = totalOvers s0 ∧
     currentBowler (overEnd (nextBall s0)) = currentBowler s0) ∨
    (totalOvers (overEnd (nextBall s0)) = totalOvers s0 + 1 ∧
     currentBowler (overEnd (nextBall s0)) ≠ currentBowler s0 ∧
     previousBowler (overEnd (nextBall s0)) = currentBowler s0)).
  { intros s0 (_&_&Hn&_&_&Hc&_). unfold overEnd. simpl.
    destruct (Z.eqb_spec (currentOverBalls s0 + 1) ballsPerOver); simpl; [right|left; done].
    destruct (changeBowler_eq s0 Hn Hc) as (_ & Hne & _). done. }
  destruct (isInningsComplete s) eqn:Hc.
  { exists s, h. rewrite playBall_complete by done. split; [done|]. split; [done|]. by left. }
  destruct (Z.eq_dec o 5) as [->|Ho].
  - destruct (playBall_wicket_eq s h Hwf Hc) as (bw & p & _ & _ & ->).
    pose proof (wf_changeBatsman _ _ (wf_scoreWicket bw _ _ Hwf)) as Hwf1.
    eexists _, _. split; [done|]. split.
    { apply wf_heap with h; [by rewrite length_insert|]. by apply wf_overEnd_nextBall. }
    destruct (Hend _ Hwf1) as [[E1 E2]|(E1 & E2 & E3)]; [left|right];
      rewrite E1; [rewrite E2|rewrite E3];
      unfold changeBatsman, scoreWicket in *; repeat case_match; simpl in *; done.
  - destruct (playBall_runs_eq o s h Hwf Hc Ho) as (st & ps & bw & pb & _ & _ & _ & _ & ->).
    pose proof (wf_strikeAfter o _ _ (wf_scoreRuns st o _ _ Hwf)) as Hwf1.
    eexists _, _. split; [done|]. split.
    { apply wf_heap with h; [by rewrite !length_insert|]. by apply wf_overEnd_nextBall. }
    destruct (Hend _ Hwf1) as [[E1 E2]|(E1 & E2 & E3)]; [left|right];
      rewrite E1; [rewrite E2|rewrite E3];
      unfold strikeAfter, changeStrike, scoreRuns in *; repeat case_match; simpl in *; done.
Qed.

(** The first over completed from a state is bowled by its current bowler,
    and no two neighbours of the list are equal. *)
Lemma overBowlers_alternate (os : list Z) :
  ∀ (s : Innings.t) (h : Heap),
    wf s h →
    (∀ b, head (overBowlers os s h) = Some b → b = currentBowler s) ∧
    (∀ (i : nat) (a b : Z),
       overBowlers os s h !! i = Some a → overBowlers os s h !! S i = Some b → a ≠ b).
Proof.
  induction os as [|o os IH]; intros s h Hwf; [done|].
  destruct (playBall_bowler o s h Hwf) as (s1 & h1 & E & Hwf1 & Hcase).
  destruct (IH s1 h1 Hwf1) as [IHhead IHadj].
  simpl. rewrite E.
  destruct Hcase as [[Eo Eb]|(Eo & Eb & _)].
  - rewrite Eo, Z.ltb_irrefl. simpl. split; [|done].
    intros b Hb. rewrite <- Eb. by apply IHhead.
  - replace (totalOvers s <? totalOvers s1) with true by (symmetry; apply Z.ltb_lt; lia).
    simpl. split; [by intros b [= <-]|].
    intros [|i] a b; simpl.
    + intros [= <-] Hb. rewrite <- head_lookup in Hb.
      apply IHhead in Hb. congruence.
    + apply IHadj.
Qed.

(** C8.  In an innings whose bowling order has at least two players (part of
    [wf]), whatever is drawn, no over of the sequence of completed overs is
    bowled by the bowler index of the over just before it. *)
Theorem bowler_non_repetition (os : list Z) (s : Innings.t) (h : Heap)
    (i : nat) (a b : Z) :
  wf s h →
  (2 ≤ length (bowlingOrder s))%nat →
  overBowlers os s h !! i = Some a →
  overBowlers os s h !! S i = Some b →
  a ≠ b.
Proof.
  intros Hwf _. by apply (overBowlers_alternate os s h Hwf).
Qed.

Lemma bowler_non_repetition_witness :
  overBowlers [0; 1; 2; 3; 4; 6; 0; 1; 2; 3; 4; 6] Sample.first Sample.allPlayers = [0; 1] ∧
  (0 : Z) ≠ 1.
Proof.
  split; [reflexivity|].
  apply (bowler_non_repetition [0; 1; 2; 3; 4; 6; 0; 1; 2; 3; 4; 6]
           Sample.first Sample.allPlayers 0 0 1).
  - by_compute.
  - simpl. lia.
  - reflexivity.
  - reflexivity.
Defined.

(** ** Batsman replacement (C10, C6) *)

Lemma overEnd_nextBall_batsmen (s : Innings.t) :
  currentBatsman1 (overEnd (nextBall s)) = currentBatsman1 s ∧
  currentBatsman2 (overEnd (nextBall s)) = currentBatsman2 s ∧
  battingOrder (overEnd (nextBall s)) = battingOrder s.
Proof. unfold overEnd. case_match; done. Qed.

(** C10.  On a wicket for which the batting order still has a next batsman,
    that batsman takes the place of the higher of the two batting indices,
    whether it is the striker's ([currentBatsman1]) or not, and the lower
    index stays where it is, in the same role. *)
Theorem wicket_replaces_higher_index (s : Innings.t) (h : Heap) :
  wf s h → isInningsComplete s = false →
  Z.max (currentBatsman1 s) (currentBatsman2 s) + 1 < Z.of_nat (length (battingOrder s)) →
  ∃ s' h',
    playBall 5 s h = Some (s', h') ∧
    (currentBatsman2 s < currentBatsman1 s →
       currentBatsman1 s' = Z.max (currentBatsman1 s) (currentBatsman2 s) + 1 ∧
       currentBatsman2 s' = currentBatsman2 s) ∧
    (currentBatsman1 s ≤ currentBatsman2 s →
       currentBatsman1 s' = currentBatsman1 s ∧
       currentBatsman2 s' = Z.max (currentBatsman1 s) (currentBatsman2 s) + 1).
Proof.
  intros Hwf Hc Hnext.
  destruct (playBall_wicket_eq s h Hwf Hc) as (bw & p & _ & _ & ->).
  eexists _, _. split; [done|].
  destruct (overEnd_nextBall_batsmen (changeBatsman (scoreWicket bw s))) as (-> & -> & _).
  destruct Hwf as (_&_&_&Hb1&Hb2&_).
  unfold changeBatsman. simpl.
  destruct (Z.leb_spec 0 (Z.max (currentBatsman1 s) (currentBatsman2 s) + 1)); [|lia].
  destruct (Z.ltb_spec (Z.max (currentBatsman1 s) (currentBatsman2 s) + 1)
              (Z.of_nat (length (battingOrder s)))); [|lia].
  destruct (Z.ltb_spec (currentBatsman2 s) (currentBatsman1 s)); simpl;
    (split; [intros ?|intros ?]; first [done|lia]).
Qed.

Lemma wicket_replaces_higher_index_witness :
  ∃ s' h',
    playBall 5 (changeStrike Sample.first) Sample.allPlayers = Some (s', h') ∧
    (currentBatsman2 (changeStrike Sample.first) < currentBatsman1 (changeStrike Sample.first) →
       currentBatsman1 s' = 1 + 1 ∧ currentBatsman2 s' = 0) ∧
    (currentBatsman1 (changeStrike Sample.first) ≤ currentBatsman2 (changeStrike Sample.first) →
       currentBatsman1 s' = 1 ∧ currentBatsman2 s' = 1 + 1).
Proof.
  apply (wicket_replaces_higher_index (changeStrike Sample.first) Sample.allPlayers).
  - by_compute.
  - reflexivity.
  - simpl. lia.
Defined.

(** C6, as the code has it.  When a wicket falls and the batting order has
    no unused position, the ball is played like any other wicket: both
    batting indices stay as they are, and the innings is complete after the
    ball only if this wicket reaches the wicket limit or this ball ends the
    last over. *)
Theorem wicket_without_replacement (s : Innings.t) (h : Heap) :
  wf s h → isInningsComplete s = false →
  Z.of_nat (length (battingOrder s)) ≤ Z.max (currentBatsman1 s) (currentBatsman2 s) + 1 →
  ∃ s' h',
    playBall 5 s h = Some (s', h') ∧
    currentBatsman1 s' = currentBatsman1 s ∧
    currentBatsman2 s' = currentBatsman2 s ∧
    totalWickets s' = totalWickets s + 1 ∧
    (isInningsComplete s' = true ↔
       totalWickets s + 1 = maxWickets ∨
       (totalOvers s + 1 = maxOvers ∧ currentOverBalls s + 1 = ballsPerOver)).
Proof.
  intros Hwf Hc Hnext.
  destruct (playBall_wicket_eq s h Hwf Hc) as (bw & p & _ & _ & ->).
  eexists _, _. split; [done|].
  destruct (overEnd_nextBall_batsmen (changeBatsman (scoreWicket bw s))) as (-> & -> & _).
  apply isInningsComplete_false in Hc as [Hc1 Hc2].
  unfold isInningsComplete, overEnd, changeBatsman. simpl.
  destruct (Z.ltb_spec (Z.max (currentBatsman1 s) (currentBatsman2 s) + 1)
              (Z.of_nat (length (battingOrder s)))); [lia|].
  rewrite andb_false_r. simpl. repeat (split; [done|]).
  destruct (Z.eqb_spec (currentOverBalls s + 1) ballsPerOver); simpl;
    rewrite orb_true_iff, !Z.leb_le; unfold maxWickets, maxOvers in *; lia.
Qed.

Lemma wicket_without_replacement_witness :
  ∃ s' h',
    playBall 5 Sample.lastPair Sample.allPlayers = Some (s', h') ∧
    currentBatsman1 s' = 3 ∧
    currentBatsman2 s' = 4 ∧
    totalWickets s' = 0 + 1 ∧
    (isInningsComplete s' = true ↔
       0 + 1 = maxWickets ∨ (0 + 1 = maxOvers ∧ 0 + 1 = ballsPerOver)).
Proof.
  apply (wicket_without_replacement Sample.lastPair Sample.allPlayers).
  - by_compute.
  - reflexivity.
  - simpl. lia.
Defined.

(** C6 as the claim states it fails: the openers a4 and a5 are the last two
    of a batting order of five, so a wicket on the first ball finds no
    position past the higher index, and the innings is not complete after
    it. *)
Lemma wicket_without_replacement_not_complete :
  setBatsmen Sample.allPlayers "a4" "a5" Sample.first = Some Sample.lastPair ∧
  Z.of_nat (length (battingOrder Sample.lastPair))
    ≤ Z.max (currentBatsman1 Sample.lastPair) (currentBatsman2 Sample.lastPair) + 1 ∧
  (isInningsComplete ∘ fst) <$> playBall 5 Sample.lastPair Sample.allPlayers = Some false.
Proof. split; [reflexivity|]. split; [simpl; lia|reflexivity]. Qed.

(** ** Setup with a name that is not in the order (C9) *)

Lemma setBatsmen_loop_absent (h : Heap) (striker nonStriker : string) (v : list nat) :
  ∀ (i b1 b2 : Z),
    inStore h v →
    ∃ b1' b2',
      setBatsmen_loop h striker nonStriker v i b1 b2 = Some (b1', b2') ∧
      (absent h striker v → b1' = b1) ∧
      (absent h nonStriker v → b2' = b2).
Proof.
  induction v as [|pid v IH]; intros i b1 b2 Hv.
  - exists b1, b2. done.
  - apply Forall_cons in Hv as [Hpid Hv].
    destruct (lookup_lt_is_Some_2 h pid Hpid) as [p Hp].
    simpl. rewrite Hp. simpl.
    destruct (IH (i + 1)
                (if String.eqb (Player.getName p) striker then i else b1)
                (if String.eqb (Player.getName p) nonStriker then i else b2) Hv)
      as (b1' & b2' & -> & H1 & H2).
    exists b1', b2'. split; [done|]. split; intros Ha.
    + rewrite H1 by (intros q pq Hq; apply Ha; by right).
      destruct (String.eqb_spec (Player.getName p) striker) as [E|_]; [|done].
      exfalso. apply (Ha pid p); [by left|done|done].
    + rewrite H2 by (intros q pq Hq; apply Ha; by right).
      destruct (String.eqb_spec (Player.getName p) nonStriker) as [E|_]; [|done].
      exfalso. apply (Ha pid p); [by left|done|done].
Qed.

Lemma setBowler_loop_absent (h : Heap) (bowlerName : string) (v : list nat) :
  ∀ (i b : Z),
    inStore h v →
    ∃ b', setBowler_loop h bowlerName v i b = Some b' ∧ (absent h bowlerName v → b' = b).
Proof.
  induction v as [|pid v IH]; intros i b Hv.
  - exists b. done.
  - apply Forall_cons in Hv as [Hpid Hv].
    destruct (lookup_lt_is_Some_2 h pid Hpid) as [p Hp].
    simpl. rewrite Hp. simpl.
    destruct (IH (i + 1) (if String.eqb (Player.getName p) bowlerName then i else b) Hv)
      as (b' & -> & H1).
    exists b'. split; [done|]. intros Ha.
    rewrite H1 by (intros q pq Hq; apply Ha; by right).
    destruct (String.eqb_spec (Player.getName p) bowlerName) as [E|_]; [|done].
    exfalso. apply (Ha pid p); [by left|done|done].
Qed.

(** C9, as the code has it.  [setBatsmen] and [setBowler] return nothing
    and report nothing.  They always run to their end, and a name that is
    not in the order leaves its index as it was: for an innings just
    constructed, 0 for the striker, 1 for the non-striker and 0 for the
    bowler. *)
Theorem setup_absent_keeps_index (h : Heap) (striker nonStriker bowlerName : string)
    (s : Innings.t) :
  inStore h (battingOrder s) → inStore h (bowlingOrder s) →
  ∃ s1 s2,
    setBatsmen h striker nonStriker s = Some s1 ∧
    setBowler h bowlerName s1 = Some s2 ∧
    (absent h striker (battingOrder s) → currentBatsman1 s2 = currentBatsman1 s) ∧
    (absent h nonStriker (battingOrder s) → currentBatsman2 s2 = currentBatsman2 s) ∧
    (absent h bowlerName (bowlingOrder s) → currentBowler s2 = currentBowler s).
Proof.
  intros Hbat Hbowl. unfold setBatsmen, setBowler.
  destruct (setBatsmen_loop_absent h striker nonStriker (battingOrder s) 0
              (currentBatsman1 s) (currentBatsman2 s) Hbat) as (b1 & b2 & -> & H1 & H2).
  destruct (setBowler_loop_absent h bowlerName (bowlingOrder s) 0 (currentBowler s) Hbowl)
    as (b & E & H3).
  exists (withBatsmen b1 b2 s), (withBowlers b (previousBowler s) (withBatsmen b1 b2 s)).
  simpl. rewrite E. done.
Qed.

Lemma setup_absent_keeps_index_witness :
  ∃ s1 s2,
    setBatsmen Sample.allPlayers "x" "a2" Sample.first = Some s1 ∧
    setBowler Sample.allPlayers "z" s1 = Some s2 ∧
    (absent Sample.allPlayers "x" (battingOrder Sample.first) → currentBatsman1 s2 = 0) ∧
    (absent Sample.allPlayers "a2" (battingOrder Sample.first) → currentBatsman2 s2 = 1) ∧
    (absent Sample.allPlayers "z" (bowlingOrder Sample.first) → currentBowler s2 = 0).
Proof.
  apply (setup_absent_keeps_index Sample.allPlayers "x" "a2" "z" Sample.first).
  - unfold inStore. by_compute.
  - unfold inStore. by_compute.
Defined.

(** C9 as the claim states it fails: none of the three names is in the
    lineup, the setup ends normally with the indices the constructor chose,
    and the first ball is played on them. *)
Lemma setup_absent_proceeds :
  absent Sample.allPlayers "x" (battingOrder Sample.first) ∧
  absent Sample.allPlayers "y" (battingOrder Sample.first) ∧
  absent Sample.allPlayers "z" (bowlingOrder Sample.first) ∧
  setBatsmen Sample.allPlayers "x" "y" Sample.first = Some Sample.first ∧
  setBowler Sample.allPlayers "z" Sample.first = Some Sample.first ∧
  (currentBatsman1 Sample.first, currentBatsman2 Sample.first, currentBowler Sample.first)
    = (0, 1, 0) ∧
  (totalBalls ∘ fst) <$> playBall 4 Sample.first Sample.allPlayers = Some 1.
Proof.
  assert (Habs : ∀ n v, forallb (λ pid,
      match Sample.allPlayers !! pid with
      | Some p => negb (String.eqb (Player.getName p) n)
      | None => true
      end) v = true → absent Sample.allPlayers n v).
  { intros n v Hf pid p Hin Hp E.
    rewrite forallb_forall in Hf. apply list_elem_of_In in Hin.
    specialize (Hf pid Hin). rewrite Hp in Hf.
    apply negb_true_iff in Hf. apply String.eqb_neq in Hf. done. }
  repeat split; try (apply Habs; reflexivity); reflexivity.
Qed.

(** ** Player of the innings and of the match (C4) *)

Lemma credit_lookup (h : Heap) (pid : nat) (p : Player.t) :
  h !! pid = Some p → credit h pid = Player.getMatchCredits p.
Proof. intros E. unfold credit. by rewrite E. Qed.

(** One scan: the result is defined; the running maximum only grows and
    bounds every player scanned; and either nothing changed, or the best is
    now the first player of the vector that has the final maximum. *)
Lemma scan_spec (h : Heap) (v : list nat) :
  ∀ (best : option nat) (mx : Z),
    inStore h v →
    ∃ best' mx',
      scan h v best mx = Some (best', mx') ∧
      mx ≤ mx' ∧
      (∀ j q, v !! j = Some q → credit h q ≤ mx') ∧
      ((best' = best ∧ mx' = mx) ∨
       (∃ (i : nat) (pid : nat),
          v !! i = Some pid ∧ best' = Some pid ∧ credit h pid = mx' ∧ mx < mx' ∧
          ∀ j q, (j < i)%nat → v !! j = Some q → credit h q < mx')).
Proof.
  induction v as [|pid v IH]; intros best mx Hv.
  - exists best, mx. simpl. split; [done|]. split; [lia|]. split; [done|]. by left.
  - apply Forall_cons in Hv as [Hpid Hv].
    destruct (lookup_lt_is_Some_2 h pid Hpid) as [p Hp].
    pose proof (credit_lookup h pid p Hp) as Hcr.
    simpl. rewrite Hp. simpl.
    destruct (Z.ltb_spec mx (Player.getMatchCredits p)) as [Hlt|Hge].
    + destruct (IH (Some pid) (Player.getMatchCredits p) Hv)
        as (best' & mx' & -> & Hle & Hall & Hcase).
      exists best', mx'. split; [done|]. split; [lia|]. split.
      { intros [|j] q; simpl; [intros [= <-]; lia|apply Hall]. }
      right. destruct Hcase as [[-> ->]|(i & a & Ei & -> & Ea & Hgt & Hbefore)].
      * exists 0%nat, pid. simpl. repeat split; try done. intros j q Hj. lia.
      * exists (S i), a. simpl. repeat split; try done; [lia|].
        intros [|j] q Hj; simpl; [intros [= <-]; lia|apply Hbefore; lia].
    + destruct (IH best mx Hv) as (best' & mx' & -> & Hle & Hall & Hcase).
      exists best', mx'. split; [done|]. split; [lia|]. split.
      { intros [|j] q; simpl; [intros [= <-]; lia|apply Hall]. }
      destruct Hcase as [[-> ->]|(i & a & Ei & -> & Ea & Hgt & Hbefore)]; [by left|].
      right. exists (S i), a. simpl. repeat split; try done.
      intros [|j] q Hj; simpl; [intros [= <-]; lia|apply Hbefore; lia].
Qed.

Lemma scan_app (h : Heap) (v1 v2 : list nat) :
  ∀ (best : option nat) (mx : Z),
    scan h (v1 ++ v2) best mx = scan h v1 best mx ≫= λ '(b, m), scan h v2 b m.
Proof.
  induction v1 as [|pid v1 IH]; intros best mx; simpl.
  - done.
  - destruct (h !! pid) as [p|]; simpl; [|done]. case_match; apply IH.
Qed.

(** [getPlayerOfInnings] is one scan of the batting order followed by the
    bowling order, and returns its first player with the most match
    credits. *)
Lemma getPlayerOfInnings_firstBest (h : Heap) (s : Innings.t) :
  inStore h (battingOrder s ++ bowlingOrder s) →
  battingOrder s ++ bowlingOrder s ≠ [] →
  (∀ q, q ∈ battingOrder s ++ bowlingOrder s → 0 ≤ credit h q) →
  ∃ a,
    getPlayerOfInnings h s = Some (Some a) ∧
    firstBest h (battingOrder s ++ bowlingOrder s) a.
Proof.
  intros Hv Hne Hpos.
  assert (E : getPlayerOfInnings h s =
              scan h (battingOrder s ++ bowlingOrder s) None (-1) ≫= λ '(b, _), Some b).
  { unfold getPlayerOfInnings. rewrite scan_app.
    destruct (scan h (battingOrder s) None (-1)) as [[b m]|]; done. }
  rewrite E.
  destruct (scan_spec h _ None (-1) Hv) as (best' & mx' & -> & _ & Hall & Hcase).
  simpl. destruct Hcase as [[-> ->]|(i & a & Ei & -> & Ea & _ & Hbefore)].
  - exfalso. destruct (battingOrder s ++ bowlingOrder s) as [|q v] eqn:Ev; [done|].
    specialize (Hall 0%nat q eq_refl).
    assert (0 ≤ credit h q) by (apply Hpos; by left). lia.
  - exists a. split; [done|]. exists i. rewrite Ea. done.
Qed.

(** C4, as the code has it.  Each innings' awardee is the first player,
    batting order before bowling order, with the most match credits of the
    innings.  The player of the match is the awardee of the first innings
    (team A batting) only when that one has strictly more match credits; on
    equal credits, as on fewer, it is the awardee of the second innings. *)
Theorem match_standout_rule (h : Heap) (m : Match.t) :
  inStore h (battingOrder (Match.innings1 m) ++ bowlingOrder (Match.innings1 m)) →
  inStore h (battingOrder (Match.innings2 m) ++ bowlingOrder (Match.innings2 m)) →
  battingOrder (Match.innings1 m) ++ bowlingOrder (Match.innings1 m) ≠ [] →
  battingOrder (Match.innings2 m) ++ bowlingOrder (Match.innings2 m) ≠ [] →
  (∀ q p, h !! q = Some p → 0 ≤ Player.getMatchCredits p) →
  ∃ a1 a2,
    getPlayerOfInnings h (Match.innings1 m) = Some (Some a1) ∧
    firstBest h (battingOrder (Match.innings1 m) ++ bowlingOrder (Match.innings1 m)) a1 ∧
    getPlayerOfInnings h (Match.innings2 m) = Some (Some a2) ∧
    firstBest h (battingOrder (Match.innings2 m) ++ bowlingOrder (Match.innings2 m)) a2 ∧
    (credit h a2 < credit h a1 → Match.calculatePlayerOfMatch h m = Some a1) ∧
    (credit h a1 = credit h a2 → Match.calculatePlayerOfMatch h m = Some a2) ∧
    (credit h a1 < credit h a2 → Match.calculatePlayerOfMatch h m = Some a2).
Proof.
  intros Hv1 Hv2 Hne1 Hne2 Hpos.
  assert (Hpos' : ∀ q, 0 ≤ credit h q).
  { intros q. unfold credit. destruct (h !! q) as [p|] eqn:E; simpl; [by eapply Hpos|done]. }
  destruct (getPlayerOfInnings_firstBest h (Match.innings1 m) Hv1 Hne1) as (a1 & E1 & F1);
    [by intros|].
  destruct (getPlayerOfInnings_firstBest h (Match.innings2 m) Hv2 Hne2) as (a2 & E2 & F2);
    [by intros|].
  exists a1, a2. repeat (split; [done|]).
  assert (Hin : ∀ v a, inStore h v → firstBest h v a → ∃ p, h !! a = Some p).
  { intros v a Hv (i & Ei & _). unfold inStore in Hv. rewrite Forall_lookup in Hv.
    apply (lookup_lt_is_Some_2 h a). by eapply Hv. }
  destruct (Hin _ _ Hv1 F1) as [p1 Hp1]. destruct (Hin _ _ Hv2 F2) as [p2 Hp2].
  unfold Match.calculatePlayerOfMatch. rewrite E1, E2. simpl. rewrite Hp1, Hp2. simpl.
  rewrite (credit_lookup _ _ _ Hp1), (credit_lookup _ _ _ Hp2).
  destruct (Z.ltb_spec (Player.getMatchCredits p2) (Player.getMatchCredits p1));
    repeat split; intros; first [done|lia].
Qed.

(** In a match as the constructor builds it, the second innings scans the
    players of the first in the other order, so the two awardees always have
    the same match credits: the player of the match is always the awardee
    of the second innings. *)
Lemma standout_is_second_awardee (h : Heap) (m : Match.t) (a1 a2 : nat) :
  battingOrder (Match.innings2 m) = bowlingOrder (Match.innings1 m) →
  bowlingOrder (Match.innings2 m) = battingOrder (Match.innings1 m) →
  firstBest h (battingOrder (Match.innings1 m) ++ bowlingOrder (Match.innings1 m)) a1 →
  firstBest h (battingOrder (Match.innings2 m) ++ bowlingOrder (Match.innings2 m)) a2 →
  credit h a1 = credit h a2.
Proof.
  intros -> -> (i1 & E1 & Hmax1 & _) (i2 & E2 & Hmax2 & _).
  assert (Hswap : ∀ (x : nat) (u v : list nat) (i : nat),
            (u ++ v) !! i = Some x → ∃ j, (v ++ u) !! j = Some x).
  { intros x u v i Hi. apply list_elem_of_lookup.
    assert (Hin : x ∈ u ++ v) by (by eapply list_elem_of_lookup_2).
    rewrite elem_of_app in Hin. rewrite elem_of_app. tauto. }
  destruct (Hswap _ _ _ _ E1) as [j1 Hj1]. destruct (Hswap _ _ _ _ E2) as [j2 Hj2].
  pose proof (Hmax2 _ _ Hj1). pose proof (Hmax1 _ _ Hj2). lia.
Qed.

Lemma match_standout_rule_witness :
  ∃ a1 a2,
    getPlayerOfInnings Sample.allPlayers (Match.innings1 Sample.match1) = Some (Some a1) ∧
    firstBest Sample.allPlayers
      (battingOrder (Match.innings1 Sample.match1) ++ bowlingOrder (Match.innings1 Sample.match1))
      a1 ∧
    getPlayerOfInnings Sample.allPlayers (Match.innings2 Sample.match1) = Some (Some a2) ∧
    firstBest Sample.allPlayers
      (battingOrder (Match.innings2 Sample.match1) ++ bowlingOrder (Match.innings2 Sample.match1))
      a2 ∧
    (credit Sample.allPlayers a2 < credit Sample.allPlayers a1 →
       Match.calculatePlayerOfMatch Sample.allPlayers Sample.match1 = Some a1) ∧
    (credit Sample.allPlayers a1 = credit Sample.allPlayers a2 →
       Match.calculatePlayerOfMatch Sample.allPlayers Sample.match1 = Some a2) ∧
    (credit Sample.allPlayers a1 < credit Sample.allPlayers a2 →
       Match.calculatePlayerOfMatch Sample.allPlayers Sample.match1 = Some a2).
Proof.
  apply (match_standout_rule Sample.allPlayers Sample.match1).
  - unfold inStore. by_compute.
  - unfold inStore. by_compute.
  - simpl. discriminate.
  - simpl. discriminate.
  - intros q p Hq.
    assert (Hall : Forall (λ p, 0 ≤ Player.getMatchCredits p) Sample.allPlayers) by by_compute.
    rewrite Forall_lookup in Hall. by eapply Hall.
Defined.

(** C4 as the claim states it fails.  In the first fixture, with a wicket on
    the first ball of each innings, the bowlers b3 (player 7) and a3
    (player 2) end with one match credit each.  The awardee of the first
    innings is a3, the awardee of the second is b3, their credits are equal,
    and the player of the match is b3, not a3. *)
Lemma match_standout_tie_goes_to_second :
  match Match.setupInnings Sample.allPlayers Sample.names1 Sample.match1 with
  | Some m =>
      match Match.playMatch Sample.wicketFirst m Sample.allPlayers with
      | Some (m', pom, h', _) =>
          getPlayerOfInnings h' (Match.innings1 m') = Some (Some 2%nat) ∧
          getPlayerOfInnings h' (Match.innings2 m') = Some (Some 7%nat) ∧
          credit h' 2 = 1 ∧ credit h' 7 = 1 ∧
          pom = 7%nat ∧ pom ≠ 2%nat
      | None => False
      end
  | None => False
  end.
Proof. vm_compute. repeat split; congruence. Qed.

(** ** What a ball does to the players (C1, C2, C7) *)

Lemma insert_preserves (f : Player.t → Z) (g : Player.t → Player.t)
    (h : Heap) (i : nat) (p : Player.t) :
  h !! i = Some p → f (g p) = f p →
  ∀ q, f <$> <[i := g p]> h !! q = f <$> h !! q.
Proof.
  intros Hp Hf q. destruct (decide (q = i)) as [->|Hne].
  - rewrite list_lookup_insert_eq by (by eapply lookup_lt_Some). rewrite Hp. simpl. by rewrite Hf.
  - by rewrite list_lookup_insert_ne.
Qed.

Lemma addBall_credits (p : Player.t) :
  Player.getMatchCredits (Player.addBall p) = Player.getMatchCredits p ∧
  Player.getTotalCredits (Player.addBall p) = Player.getTotalCredits p.
Proof. by destruct p. Qed.

(** No outcome of [ballOutcomes] reaches 20, so [runs / 20] is zero on every
    ball and [addRuns] never gives a credit. *)
Lemma addRuns_credits (o : Z) (p : Player.t) :
  o ∈ ballOutcomes →
  Player.getMatchCredits (Player.addRuns o p) = Player.getMatchCredits p ∧
  Player.getTotalCredits (Player.addRuns o p) = Player.getTotalCredits p.
Proof.
  intros Ho.
  assert (Hq : o ÷ 20 = 0).
  { unfold ballOutcomes in Ho. apply Z.quot_small.
    repeat (apply elem_of_cons in Ho as [->|Ho]; [lia|]). by apply elem_of_nil in Ho. }
  destruct p as [b st|b st|b bs ws]; unfold Player.getMatchCredits, Player.getTotalCredits;
    simpl; rewrite ?Hq; simpl; split; lia.
Qed.

Lemma addRuns_gap (o : Z) (p : Player.t) : creditGap (Player.addRuns o p) = creditGap p.
Proof.
  destruct p; unfold creditGap, Player.getMatchCredits, Player.getTotalCredits; simpl; lia.
Qed.

Lemma addBall_gap (p : Player.t) : creditGap (Player.addBall p) = creditGap p.
Proof. by destruct p. Qed.

Lemma addWicket_gap (p : Player.t) : creditGap (Player.addWicket p) = creditGap p.
Proof.
  destruct p; unfold creditGap, Player.getMatchCredits, Player.getTotalCredits; simpl; lia.
Qed.

(** Whatever is drawn, a ball gives every credit to the match credits and
    to the career credits alike, and nothing in [playBall] takes match
    credits away. *)
Lemma playBall_gap (o : Z) (s s' : Innings.t) (h h' : Heap) :
  wf s h → playBall o s h = Some (s', h') →
  ∀ q, creditGap <$> h' !! q = creditGap <$> h !! q.
Proof.
  intros Hwf E q.
  destruct (isInningsComplete s) eqn:Hc.
  { rewrite playBall_complete in E by done. by injection E as <- <-. }
  destruct (Z.eq_dec o 5) as [->|Ho].
  - destruct (playBall_wicket_eq s h Hwf Hc) as (bw & p & _ & Hp & E').
    rewrite E' in E. injection E as <- <-.
    apply (insert_preserves creditGap
             (λ p, Player.addBall (Player.addBall (Player.addWicket p)))); [done|].
    by rewrite !addBall_gap, addWicket_gap.
  - destruct (playBall_runs_eq o s h Hwf Hc Ho) as (st & ps & bw & pb & _ & Hps & _ & Hpb & E').
    rewrite E' in E. injection E as <- <-.
    rewrite (insert_preserves creditGap Player.addBall _ bw pb Hpb (addBall_gap pb)).
    apply (insert_preserves creditGap (λ p, Player.addBall (Player.addRuns o p))); [done|].
    by rewrite addBall_gap, addRuns_gap.
Qed.

(** A ball of runs, of any value that can be drawn, changes nobody's match
    credits. *)
Lemma playBall_runs_no_credit (o : Z) (s s' : Innings.t) (h h' : Heap) :
  wf s h → o ∈ ballOutcomes → o ≠ 5 → playBall o s h = Some (s', h') →
  ∀ q, credit h' q = credit h q.
Proof.
  intros Hwf Ho Ho5 E q.
  assert (Hf : Player.getMatchCredits <$> h' !! q = Player.getMatchCredits <$> h !! q).
  { destruct (isInningsComplete s) eqn:Hc.
    { rewrite playBall_complete in E by done. by injection E as <- <-. }
    destruct (playBall_runs_eq o s h Hwf Hc Ho5) as (st & ps & bw & pb & _ & Hps & _ & Hpb & E').
    rewrite E' in E. injection E as <- <-.
    rewrite (insert_preserves Player.getMatchCredits Player.addBall _ bw pb Hpb
               (proj1 (addBall_credits pb))).
    apply (insert_preserves Player.getMatchCredits
             (λ p, Player.addBall (Player.addRuns o p))); [done|].
    rewrite (proj1 (addBall_credits _)). by apply addRuns_credits. }
  unfold credit. destruct (h' !! q), (h !! q); simpl in *; congruence.
Qed.

(** A ball of runs does nothing to the bowler but [addBall]: the runs are
    added to no counter of the bowler. *)
Lemma playBall_runs_bowler (o : Z) (s : Innings.t) (h : Heap) :
  wf s h → isInningsComplete s = false → o ≠ 5 →
  ∃ st bw p s' h',
    at_ (battingOrder s) (currentBatsman1 s) = Some st ∧
    at_ (bowlingOrder s) (currentBowler s) = Some bw ∧
    h !! bw = Some p ∧
    playBall o s h = Some (s', h') ∧
    totalRuns s' = totalRuns s + o ∧
    (bw ≠ st →
       h' !! bw = Some (Player.addBall p) ∧
       Player.getTotalRunsConceded (Player.addBall p) = Player.getTotalRunsConceded p ∧
       Player.getRunsConceded (Player.addBall p) = Player.getRunsConceded p).
Proof.
  intros Hwf Hc Ho.
  destruct (playBall_runs_eq o s h Hwf Hc Ho) as (st & ps & bw & pb & Est & Hps & Ebw & Hpb & E).
  destruct (wf_lookup_bowler s h Hwf) as (bw' & p & Ebw' & Hp).
  assert (bw' = bw) as -> by congruence.
  exists st, bw, p. eexists _, _. repeat (split; [done|]). split.
  { destruct (overEnd_nextBall_counts (strikeAfter o (scoreRuns st o s))) as (_ & _ & _ & _ & ->).
    - apply (wf_strikeAfter o _ h), wf_scoreRuns, Hwf.
    - by destruct (strikeAfter_counts o (scoreRuns st o s)) as (_ & _ & _ & -> & _). }
  intros Hne. rewrite list_lookup_insert_ne in Hpb by done.
  assert (pb = p) as -> by congruence.
  split; [|by destruct p].
  apply list_lookup_insert_eq. rewrite length_insert. by eapply lookup_lt_Some.
Qed.

(** A wicket counts one ball for the innings and calls [addBall] twice on
    the bowler: two balls bowled for a [Bowler] or an [AllRounder], two
    balls faced for a [Batsman] who bowls. *)
Lemma playBall_wicket_bowler (s : Innings.t) (h : Heap) :
  wf s h → isInningsComplete s = false →
  ∃ bw p s' h',
    at_ (bowlingOrder s) (currentBowler s) = Some bw ∧ h !! bw = Some p ∧
    playBall 5 s h = Some (s', h') ∧
    totalBalls s' = totalBalls s + 1 ∧
    h' !! bw = Some (Player.addBall (Player.addBall (Player.addWicket p))) ∧
    Player.getTotalBallsBowled (Player.addBall (Player.addBall (Player.addWicket p))) =
      match p with
      | Player.Batsman _ _ => Player.getTotalBallsBowled p
      | _ => Player.getTotalBallsBowled p + 2
      end.
Proof.
  intros Hwf Hc.
  destruct (playBall_wicket_eq s h Hwf Hc) as (bw & p & Ebw & Hp & E).
  exists bw, p. eexists _, _. repeat (split; [done|]). split; [|split].
  - destruct (overEnd_nextBall_counts (changeBatsman (scoreWicket bw s))) as (_ & _ & _ & -> & _).
    + apply (wf_changeBatsman _ h), wf_scoreWicket, Hwf.
    + by destruct (changeBatsman_counts (scoreWicket bw s)) as (_ & _ & -> & _).
  - apply list_lookup_insert_eq. by eapply lookup_lt_Some.
  - destruct p; unfold Player.getTotalBallsBowled; simpl; lia.
Qed.

(** On a ball of runs the bowler is given one ball: the count the claim C7
    describes, on this branch. *)
Lemma playBall_runs_bowler_ball (p : Player.t) :
  Player.getTotalBallsBowled (Player.addBall p) =
    match p with
    | Player.Batsman _ _ => Player.getTotalBallsBowled p
    | _ => Player.getTotalBallsBowled p + 1
    end.
Proof. by destruct p. Qed.

(** C1, at an input where the code departs from it.  The opener a1 (a
    [Batsman], player 0) hits five fours: the innings and the player both
    record 20 runs for this match, [20 / 20] is one credit, and the match
    credits of a1 are still 0, since [updateCredits] divides the runs of
    each ball by 20 and not the runs of the match. *)
Theorem batting_credit_after_twenty_runs :
  match playBalls [4; 4; 4; 4; 4] Sample.first Sample.allPlayers with
  | Some (s, h) =>
      playerRuns s !! 0%nat = Some 20 ∧
      Player.getRunsScored <$> h !! 0%nat = Some (Some 20) ∧
      20 ÷ 20 = 1 ∧
      credit h 0 = 0
  | None => False
  end.
Proof. vm_compute. done. Qed.

(** C2, at an input where the code departs from it.  With the bowler b3 (a
    [Bowler], player 7) opening to a1, a four adds 4 to the total of the
    innings and to the runs of a1, and leaves the runs conceded by b3 at 0,
    in the [Bowler] part and in the base part alike: [playBall] calls
    [addRuns] on the striker only. *)
Theorem runs_not_conceded_by_bowler :
  setBowler Sample.allPlayers "b3" Sample.first = Some Sample.bowlerB3 ∧
  match playBall 4 Sample.bowlerB3 Sample.allPlayers with
  | Some (s, h) =>
      totalRuns s = 4 ∧
      playerRuns s !! 0%nat = Some 4 ∧
      Player.getRunsScored <$> h !! 0%nat = Some (Some 4) ∧
      Player.getBallsBowled <$> h !! 7%nat = Some (Some 1) ∧
      Player.getRunsConceded <$> h !! 7%nat = Some (Some 0) ∧
      Player.getTotalRunsConceded <$> h !! 7%nat = Some 0
  | None => False
  end.
Proof. vm_compute. done. Qed.

(** C7, at an input where the code departs from it.  With the bowler b3 (a
    [Bowler], player 7) opening, a wicket on the first ball is one ball of
    the innings and two balls bowled for b3, in the [Bowler] part and in
    the base part alike: the wicket branch calls [addBall] on the bowler and
    the end of [playBall] calls it again. *)
Theorem wicket_counts_two_balls_bowled :
  setBowler Sample.allPlayers "b3" Sample.first = Some Sample.bowlerB3 ∧
  match playBall 5 Sample.bowlerB3 Sample.allPlayers with
  | Some (s, h) =>
      totalBalls s = 1 ∧
      Player.getBallsBowled <$> h !! 7%nat = Some (Some 2) ∧
      Player.getTotalBallsBowled <$> h !! 7%nat = Some 2
  | None => False
  end.
Proof. vm_compute. done. Qed.

(** ** Credits across matches (C3) *)

(** The loop of an innings keeps the gap between career and match credits
    of every player. *)
Lemma play_gap (os : list Z) :
  ∀ (s s' : Innings.t) (h h' : Heap) (rest : list Z),
    wf s h → play os s h = Some (s', h', rest) →
    ∀ q, creditGap <$> h' !! q = creditGap <$> h !! q.
Proof.
  induction os as [|o os IH]; intros s s' h h' rest Hwf E q; simpl in E.
  - destruct (isInningsComplete s); [|done]. by injection E as <- <- <-.
  - destruct (isInningsComplete s) eqn:Hc; [by injection E as <- <- <-|].
    destruct (playBall_progress o s h Hwf Hc) as (s1 & h1 & E1 & Hwf1 & _).
    rewrite E1 in E. simpl in E.
    rewrite (IH _ _ _ _ _ Hwf1 E q). by apply (playBall_gap o s s1 h h1).
Qed.

(** The two matches of the sample are the first two fixtures of the
    round-robin. *)
Lemma sample_fixtures : take 2 Sample.matches = [Sample.match1; Sample.match2].
Proof. reflexivity. Qed.

(** C3, at an input where the code departs from it.  The bowler a3 (player
    2) takes one wicket in the first fixture and one in the second.
    Nothing calls [resetMatchCredits] or [resetMatchStats] between them:
    a3 begins the second match with 1 match credit and 1 career credit,
    earns one credit in it ([playerWickets] of that innings is 1), and ends
    it with 2 match credits and 2 career credits, which is not 1 + 2. *)
Theorem match_credits_not_reset :
  match Tournament.playRound Sample.names1 (Sample.dotsFirstInnings ++ Sample.dotsFirstInnings)
          Sample.match1 Sample.allPlayers with
  | Some (h1, rest) =>
      match Match.setupInnings h1 Sample.names2 Sample.match2 with
      | Some m2 =>
          match Match.playMatch rest m2 h1 with
          | Some (m2', _, h2, _) =>
              Player.getMatchCredits <$> h1 !! 2%nat = Some 1 ∧
              Player.getTotalCredits <$> h1 !! 2%nat = Some 1 ∧
              playerWickets (Match.innings2 m2') !! 2%nat = Some 1 ∧
              Player.getMatchCredits <$> h2 !! 2%nat = Some 2 ∧
              Player.getTotalCredits <$> h2 !! 2%nat = Some 2 ∧
              Tournament.playRounds [Sample.names1; Sample.names2]
                (Sample.dotsFirstInnings ++ Sample.dotsFirstInnings)
                [Sample.match1; Sample.match2] Sample.allPlayers = Some (h2, [])
          | None => False
          end
      | None => False
      end
  | None => False
  end.
Proof. vm_compute. done. Qed.

(** * Further properties of the engine *)

(** ** The three ways a ball can go *)

Lemma playBall_cases (o : Z) (s s' : Innings.t) (h h' : Heap) :
  wf s h → playBall o s h = Some (s', h') →
  (isInningsComplete s = true ∧ s' = s ∧ h' = h) ∨
  (isInningsComplete s = false ∧ o = 5 ∧
   ∃ bw p,
     at_ (bowlingOrder s) (currentBowler s) = Some bw ∧ h !! bw = Some p ∧
     s' = overEnd (nextBall (changeBatsman (scoreWicket bw s))) ∧
     h' = <[bw := Player.addBall (Player.addBall (Player.addWicket p))]> h) ∨
  (isInningsComplete s = false ∧ o ≠ 5 ∧
   ∃ st ps bw pb,
     at_ (battingOrder s) (currentBatsman1 s) = Some st ∧ h !! st = Some ps ∧
     at_ (bowlingOrder s) (currentBowler s) = Some bw ∧
     <[st := Player.addBall (Player.addRuns o ps)]> h !! bw = Some pb ∧
     s' = overEnd (nextBall (strikeAfter o (scoreRuns st o s))) ∧
     h' = <[bw := Player.addBall pb]> (<[st := Player.addBall (Player.addRuns o ps)]> h)).
Proof.
  intros Hwf E.
  destruct (isInningsComplete s) eqn:Hc.
  { left. rewrite playBall_complete in E by done. by injection E as <- <-. }
  right. destruct (Z.eq_dec o 5) as [->|Ho]; [left|right].
  - destruct (playBall_wicket_eq s h Hwf Hc) as (bw & p & Ebw & Hp & E').
    rewrite E' in E. injection E as <- <-. repeat (split; [done|]). by exists bw, p.
  - destruct (playBall_runs_eq o s h Hwf Hc Ho) as (st & ps & bw & pb & Est & Hps & Ebw & Hpb & E').
    rewrite E' in E. injection E as <- <-. repeat (split; [done|]). by exists st, ps, bw, pb.
Qed.

Lemma playBall_wf (o : Z) (s s' : Innings.t) (h h' : Heap) :
  wf s h → playBall o s h = Some (s', h') → wf s' h'.
Proof.
  intros Hwf E. destruct (playBall_bowler o s h Hwf) as (s1 & h1 & E1 & Hwf1 & _).
  rewrite E1 in E. by injection E as <- <-.
Qed.

(** A property of the innings and the store that every ball keeps is kept
    by every sequence of balls. *)
Lemma playBalls_invariant (P : Innings.t → Heap → Prop) :
  (∀ o s h s' h', wf s h → P s h → playBall o s h = Some (s', h') → P s' h') →
  ∀ os s h s' h',
    wf s h → P s h → playBalls os s h = Some (s', h') → wf s' h' ∧ P s' h'.
Proof.
  intros Hstep os. induction os as [|o os IH]; intros s h s' h' Hwf HP E; simpl in E.
  - by injection E as <- <-.
  - destruct (playBall o s h) as [[s1 h1]|] eqn:E1; [|done]. simpl in E.
    apply (IH s1 h1); [by eapply playBall_wf|by eapply Hstep|done].
Qed.

(** Every ball of a well-formed innings is defined, so every sequence of
    balls is. *)
Lemma playBalls_total (os : list Z) :
  ∀ (s : Innings.t) (h : Heap),
    wf s h → ∃ s' h', playBalls os s h = Some (s', h') ∧ wf s' h'.
Proof.
  induction os as [|o os IH]; intros s h Hwf; [by exists s, h|].
  destruct (playBall_bowler o s h Hwf) as (s1 & h1 & E1 & Hwf1 & _).
  destruct (IH s1 h1 Hwf1) as (s' & h' & E & Hwf').
  exists s', h'. simpl. rewrite E1. done.
Qed.

Lemma overEnd_nextBall_frame (s : Innings.t) :
  let s' := overEnd (nextBall s) in
  currentBatsman1 s' = currentBatsman1 s ∧ currentBatsman2 s' = currentBatsman2 s ∧
  battingOrder s' = battingOrder s ∧ bowlingOrder s' = bowlingOrder s ∧
  totalRuns s' = totalRuns s ∧ totalWickets s' = totalWickets s ∧
  playerRuns s' = playerRuns s ∧ playerWickets s' = playerWickets s ∧
  totalBalls s' = totalBalls s + 1 ∧
  totalOvers s' * ballsPerOver + currentOverBalls s'
    = totalOvers s * ballsPerOver + currentOverBalls s + 1.
Proof.
  unfold overEnd. simpl.
  destruct (Z.eqb_spec (currentOverBalls s + 1) ballsPerOver); simpl;
    repeat split; unfold ballsPerOver in *; lia.
Qed.

Lemma changeBatsman_frame (s : Innings.t) :
  battingOrder (changeBatsman s) = battingOrder s ∧
  bowlingOrder (changeBatsman s) = bowlingOrder s ∧
  playerRuns (changeBatsman s) = playerRuns s ∧
  playerWickets (changeBatsman s) = playerWickets s ∧
  currentBowler (changeBatsman s) = currentBowler s.
Proof. unfold changeBatsman. repeat case_match; done. Qed.

Lemma strikeAfter_frame (o : Z) (s : Innings.t) :
  battingOrder (strikeAfter o s) = battingOrder s ∧
  bowlingOrder (strikeAfter o s) = bowlingOrder s ∧
  playerRuns (strikeAfter o s) = playerRuns s ∧
  playerWickets (strikeAfter o s) = playerWickets s ∧
  currentBowler (strikeAfter o s) = currentBowler s.
Proof. unfold strikeAfter. case_match; done. Qed.

(** ** Strike rotation *)

(** X1.  A ball of runs swaps the striker and the non-striker exactly when
    the remainder of the runs by two is one, and leaves both where they
    are otherwise; the end of an over never changes the strike. *)
Theorem strike_rotation (o : Z) (s : Innings.t) (h : Heap) :
  wf s h → isInningsComplete s = false → o ≠ 5 →
  ∃ s' h',
    playBall o s h = Some (s', h') ∧
    (Z.rem o 2 = 1 →
       currentBatsman1 s' = currentBatsman2 s ∧ currentBatsman2 s' = currentBatsman1 s) ∧
    (Z.rem o 2 ≠ 1 →
       currentBatsman1 s' = currentBatsman1 s ∧ currentBatsman2 s' = currentBatsman2 s).
Proof.
  intros Hwf Hc Ho.
  destruct (playBall_runs_eq o s h Hwf Hc Ho) as (st & ps & bw & pb & _ & _ & _ & _ & ->).
  eexists _, _. split; [done|].
  destruct (overEnd_nextBall_frame (strikeAfter o (scoreRuns st o s))) as (-> & -> & _).
  unfold strikeAfter. destruct (Z.eqb_spec (Z.rem o 2) 1); simpl; split; intros; done.
Qed.

Lemma strike_rotation_witness :
  ∃ s' h',
    playBall 3 Sample.first Sample.allPlayers = Some (s', h') ∧
    (Z.rem 3 2 = 1 → currentBatsman1 s' = 1 ∧ currentBatsman2 s' = 0) ∧
    (Z.rem 3 2 ≠ 1 → currentBatsman1 s' = 0 ∧ currentBatsman2 s' = 1).
Proof.
  apply (strike_rotation 3 Sample.first Sample.allPlayers).
  - by_compute.
  - reflexivity.
  - lia.
Defined.

(** ** The two batsmen at the crease *)

(** X2.  The striker and the non-striker stay two different positions of
    the batting order through every ball, wicket or runs. *)
Theorem batsmen_stay_distinct (os : list Z) (s : Innings.t) (h : Heap) :
  wf s h → currentBatsman1 s ≠ currentBatsman2 s →
  ∃ s' h',
    playBalls os s h = Some (s', h') ∧
    currentBatsman1 s' ≠ currentBatsman2 s'.
Proof.
  intros Hwf Hd.
  destruct (playBalls_total os s h Hwf) as (s' & h' & E & _).
  exists s', h'. split; [done|].
  apply (playBalls_invariant (λ s _, currentBatsman1 s ≠ currentBatsman2 s))
    with (os := os) (s := s) (h := h) (h' := h'); [|done|done|done].
  clear. intros o s h s' h' Hwf Hd E.
  destruct (playBall_cases o s s' h h' Hwf E)
    as [(_ & -> & _)|[(_ & _ & bw & p & _ & _ & -> & _)|(_ & _ & st & ps & bw & pb & _ & _ & _ & _ & -> & _)]];
    [done| |].
  - destruct (overEnd_nextBall_frame (changeBatsman (scoreWicket bw s))) as (-> & -> & _).
    unfold changeBatsman. simpl. repeat case_match; simpl; lia.
  - destruct (overEnd_nextBall_frame (strikeAfter o (scoreRuns st o s))) as (-> & -> & _).
    unfold strikeAfter. case_match; simpl; lia.
Qed.

Lemma batsmen_stay_distinct_witness :
  ∃ s' h',
    playBalls [1; 5; 3; 5] Sample.first Sample.allPlayers = Some (s', h') ∧
    currentBatsman1 s' ≠ currentBatsman2 s'.
Proof.
  apply (batsmen_stay_distinct [1; 5; 3; 5] Sample.first Sample.allPlayers).
  - by_compute.
  - simpl. lia.
Defined.

(** ** Ball accounting *)

(** X3.  The balls of the innings are its completed overs of six and the
    balls of the over in progress: [totalBalls] and
    [totalOvers * 6 + currentOverBalls] move together through every
    sequence of balls. *)
Theorem ball_accounting (os : list Z) (s : Innings.t) (h : Heap) :
  wf s h →
  totalBalls s = totalOvers s * ballsPerOver + currentOverBalls s →
  ∃ s' h',
    playBalls os s h = Some (s', h') ∧
    totalBalls s' = totalOvers s' * ballsPerOver + currentOverBalls s'.
Proof.
  intros Hwf Hd.
  destruct (playBalls_total os s h Hwf) as (s' & h' & E & _).
  exists s', h'. split; [done|].
  apply (playBalls_invariant
           (λ s _, totalBalls s = totalOvers s * ballsPerOver + currentOverBalls s))
    with (os := os) (s := s) (h := h) (h' := h'); [|done|done|done].
  clear. intros o s h s' h' Hwf Hd E.
  destruct (playBall_cases o s s' h h' Hwf E)
    as [(_ & -> & _)|[(_ & _ & bw & p & _ & _ & -> & _)|(_ & _ & st & ps & bw & pb & _ & _ & _ & _ & -> & _)]];
    [done| |].
  - destruct (overEnd_nextBall_frame (changeBatsman (scoreWicket bw s)))
      as (_ & _ & _ & _ & _ & _ & _ & _ & -> & ->).
    destruct (changeBatsman_counts (scoreWicket bw s)) as (_ & -> & -> & _ & -> & _).
    simpl. lia.
  - destruct (overEnd_nextBall_frame (strikeAfter o (scoreRuns st o s)))
      as (_ & _ & _ & _ & _ & _ & _ & _ & -> & ->).
    destruct (strikeAfter_counts o (scoreRuns st o s)) as (_ & -> & -> & _ & -> & _).
    simpl. lia.
Qed.

Lemma ball_accounting_witness :
  ∃ s' h',
    playBalls [4; 1; 0; 6; 5; 2; 1] Sample.first Sample.allPlayers = Some (s', h') ∧
    totalBalls s' = totalOvers s' * ballsPerOver + currentOverBalls s'.
Proof.
  apply (ball_accounting [4; 1; 0; 6; 5; 2; 1] Sample.first Sample.allPlayers).
  - by_compute.
  - reflexivity.
Defined.

(** ** Score conservation *)

(** What one ball played adds to the three totals of the innings. *)
Lemma playBall_score (o : Z) (s : Innings.t) (h : Heap) :
  wf s h → isInningsComplete s = false →
  ∃ s' h',
    playBall o s h = Some (s', h') ∧ wf s' h' ∧
    remaining s' = remaining s - 1 ∧
    totalRuns s' = totalRuns s + (if o =? 5 then 0 else o) ∧
    totalWickets s' = totalWickets s + (if o =? 5 then 1 else 0) ∧
    totalBalls s' = totalBalls s + 1.
Proof.
  intros Hwf Hc.
  destruct (playBall_progress o s h Hwf Hc) as (s' & h' & E & Hwf' & Hr & _ & _ & Hb).
  exists s', h'. repeat (split; [done|]).
  destruct (playBall_cases o s s' h h' Hwf E)
    as [(Hc' & _)|[(_ & -> & bw & p & _ & _ & -> & _)|(_ & Ho & st & ps & bw & pb & _ & _ & _ & _ & -> & _)]];
    [congruence| |].
  - destruct (overEnd_nextBall_frame (changeBatsman (scoreWicket bw s)))
      as (_ & _ & _ & _ & -> & -> & _ & _ & -> & _).
    destruct (changeBatsman_counts (scoreWicket bw s)) as (-> & _ & -> & -> & _).
    simpl. lia.
  - destruct (overEnd_nextBall_frame (strikeAfter o (scoreRuns st o s)))
      as (_ & _ & _ & _ & -> & -> & _ & _ & -> & _).
    destruct (strikeAfter_counts o (scoreRuns st o s)) as (-> & _ & -> & -> & _).
    destruct (Z.eqb_spec o 5); [done|]. simpl. lia.
Qed.

(** X4.  The loop of an innings, given at least as many draws as balls are
    left, ends with the innings complete; it uses a prefix of the draws and
    returns the rest; and the totals it adds are those of the draws used:
    their runs (a wicket brings none), their wickets and their number. *)
Theorem score_conservation (os : list Z) (s : Innings.t) (h : Heap) :
  wf s h → remaining s ≤ Z.of_nat (length os) →
  ∃ used rest s' h',
    os = used ++ rest ∧
    play os s h = Some (s', h', rest) ∧
    isInningsComplete s' = true ∧
    totalRuns s' = totalRuns s + runsOf used ∧
    totalWickets s' = totalWickets s + wicketsOf used ∧
    totalBalls s' = totalBalls s + Z.of_nat (length used).
Proof.
  revert s h. induction os as [|o os IH]; intros s h Hwf Hr.
  - destruct (isInningsComplete s) eqn:Hc.
    + exists [], [], s, h. simpl. rewrite Hc. repeat split; try done; lia.
    + apply isInningsComplete_false in Hc as [_ Hc2].
      destruct Hwf as (_&_&_&_&_&_&Hb).
      unfold remaining, ballsPerOver, maxOvers in *. simpl in Hr. lia.
  - destruct (isInningsComplete s) eqn:Hc.
    + exists [], (o :: os), s, h. simpl. rewrite Hc. repeat split; try done; lia.
    + destruct (playBall_score o s h Hwf Hc) as (s1 & h1 & E & Hwf1 & Er & Eruns & Ew & Eb).
      destruct (IH s1 h1 Hwf1) as (used & rest & s' & h' & -> & E1 & Hd & Hruns & Hw & Hb);
        [simpl in Hr; lia|].
      exists (o :: used), rest, s', h'. simpl. rewrite Hc, E. simpl.
      repeat (split; [done|]). repeat split; lia.
Qed.

Lemma score_conservation_witness :
  ∃ used rest s' h',
    [4; 1; 0; 6; 5; 2; 1; 1; 0; 4; 6; 5; 3; 3] = used ++ rest ∧
    play [4; 1; 0; 6; 5; 2; 1; 1; 0; 4; 6; 5; 3; 3] Sample.first Sample.allPlayers
      = Some (s', h', rest) ∧
    isInningsComplete s' = true ∧
    totalRuns s' = 0 + runsOf used ∧
    totalWickets s' = 0 + wicketsOf used ∧
    totalBalls s' = 0 + Z.of_nat (length used).
Proof.
  apply (score_conservation [4; 1; 0; 6; 5; 2; 1; 1; 0; 4; 6; 5; 3; 3]
           Sample.first Sample.allPlayers).
  - by_compute.
  - vm_compute. discriminate.
Defined.

(** ** The per-player maps of the innings *)

Lemma sumMap_insert_None (k : nat) (v : Z) (m : gmap nat Z) :
  m !! k = None → sumMap (<[k := v]> m) = v + sumMap m.
Proof.
  intros Hk. unfold sumMap.
  rewrite map_fold_insert_L; [done| |done]. intros. lia.
Qed.

Lemma sumMap_lookup (k : nat) (v : Z) (m : gmap nat Z) :
  m !! k = Some v → sumMap m = v + sumMap (delete k m).
Proof.
  intros Hk. unfold sumMap.
  rewrite (map_fold_delete_L _ _ k v m); [done| |done]. intros. lia.
Qed.

Lemma sumMap_insert (k : nat) (v : Z) (m : gmap nat Z) :
  sumMap (<[k := v]> m) = sumMap m - default 0 (m !! k) + v.
Proof.
  destruct (m !! k) as [w|] eqn:Hk; simpl.
  - rewrite (sumMap_lookup k w m Hk), <- insert_delete_eq.
    rewrite sumMap_insert_None by apply lookup_delete_eq. lia.
  - rewrite sumMap_insert_None by done. lia.
Qed.

(** [m[k] += d] adds [d] to the sum of the map, whether or not the key was
    there. *)
Lemma sumMap_bump (k : nat) (d : Z) (m : gmap nat Z) :
  sumMap (bump k d m) = sumMap m + d.
Proof. unfold bump. rewrite sumMap_insert. lia. Qed.

Lemma zeroAll_sum (l : list nat) :
  ∀ m : gmap nat Z, sumMap m = 0 → (∀ k v, m !! k = Some v → v = 0) →
    sumMap (zeroAll l m) = 0.
Proof.
  unfold zeroAll. induction l as [|k l IH]; intros m Hs Hz; [done|].
  simpl. apply IH.
  - rewrite sumMap_insert. destruct (m !! k) as [v|] eqn:Hk; simpl; [|lia].
    rewrite (Hz k v Hk). lia.
  - intros j v. destruct (decide (j = k)) as [->|Hne].
    + rewrite lookup_insert_eq. by intros [= <-].
    + rewrite lookup_insert_ne by done. apply Hz.
Qed.

(** X5.  The scorecard adds up.  In an innings begun by the constructor,
    after any sequence of balls the runs credited to the players in
    [playerRuns] sum to [totalRuns], and the wickets in [playerWickets] sum
    to [totalWickets]. *)
Theorem scorecard_adds_up (os : list Z) (batting bowling : list nat)
    (s : Innings.t) (h : Heap) :
  wf s h →
  playerRuns s = playerRuns (Innings.new batting bowling) →
  playerWickets s = playerWickets (Innings.new batting bowling) →
  totalRuns s = 0 → totalWickets s = 0 →
  ∃ s' h',
    playBalls os s h = Some (s', h') ∧
    sumMap (playerRuns s') = totalRuns s' ∧
    sumMap (playerWickets s') = totalWickets s'.
Proof.
  intros Hwf Hpr Hpw Hr Hw.
  destruct (playBalls_total os s h Hwf) as (s' & h' & E & _).
  exists s', h'. split; [done|].
  apply (playBalls_invariant
           (λ s _, sumMap (playerRuns s) = totalRuns s ∧
                   sumMap (playerWickets s) = totalWickets s))
    with (os := os) (s := s) (h := h) (h' := h'); [|done| |done].
  - clear. intros o s h s' h' Hwf [H1 H2] E.
    destruct (playBall_cases o s s' h h' Hwf E)
      as [(_ & -> & _)|[(_ & _ & bw & p & _ & _ & -> & _)|(_ & _ & st & ps & bw & pb & _ & _ & _ & _ & -> & _)]];
      [done| |].
    + destruct (overEnd_nextBall_frame (changeBatsman (scoreWicket bw s)))
        as (_ & _ & _ & _ & -> & -> & -> & -> & _).
      destruct (changeBatsman_frame (scoreWicket bw s)) as (_ & _ & -> & -> & _).
      destruct (changeBatsman_counts (scoreWicket bw s)) as (-> & _ & _ & -> & _).
      simpl. rewrite sumMap_bump. split; lia.
    + destruct (overEnd_nextBall_frame (strikeAfter o (scoreRuns st o s)))
        as (_ & _ & _ & _ & -> & -> & -> & -> & _).
      destruct (strikeAfter_frame o (scoreRuns st o s)) as (_ & _ & -> & -> & _).
      destruct (strikeAfter_counts o (scoreRuns st o s)) as (-> & _ & _ & -> & _).
      simpl. rewrite sumMap_bump. split; lia.
  - rewrite Hpr, Hpw, Hr, Hw. simpl.
    split; apply zeroAll_sum; try done; intros k v; by rewrite lookup_empty.
Qed.

Lemma scorecard_adds_up_witness :
  ∃ s' h',
    playBalls [4; 1; 0; 6; 5; 2; 1] Sample.bowlerB3 Sample.allPlayers = Some (s', h') ∧
    sumMap (playerRuns s') = totalRuns s' ∧
    sumMap (playerWickets s') = totalWickets s'.
Proof.
  apply (scorecard_adds_up [4; 1; 0; 6; 5; 2; 1] [0; 1; 2; 3; 4]%nat [5; 6; 7; 8; 9]%nat
           Sample.bowlerB3 Sample.allPlayers).
  - by_compute.
  - reflexivity.
  - reflexivity.
  - reflexivity.
  - reflexivity.
Defined.

(** ** Who earns credits *)

Lemma addWicket_credits (p : Player.t) :
  Player.getMatchCredits (Player.addWicket p)
    = Player.getMatchCredits p + (if earnsWicketCredit p then 1 else 0) ∧
  Player.getTotalCredits (Player.addWicket p)
    = Player.getTotalCredits p + (if earnsWicketCredit p then 1 else 0).
Proof.
  destruct p; unfold Player.getMatchCredits, Player.getTotalCredits; simpl; split; lia.
Qed.

(** X6.  On any ball that can be drawn, the match credits of the players
    change in one case only: a wicket gives one credit to the bowler, if
    the bowler is an object of class [Bowler].  Runs give no credit to
    anybody, and an [AllRounder] or a [Batsman] who takes a wicket earns
    nothing. *)
Theorem credits_come_from_bowler_wickets (o : Z) (s : Innings.t) (h : Heap) :
  wf s h → isInningsComplete s = false → o ∈ ballOutcomes →
  ∃ bw pb s' h',
    at_ (bowlingOrder s) (currentBowler s) = Some bw ∧ h !! bw = Some pb ∧
    playBall o s h = Some (s', h') ∧
    ∀ q, credit h' q = credit h q + creditEarned o bw pb q.
Proof.
  intros Hwf Hc Ho.
  destruct (wf_lookup_bowler s h Hwf) as (bw & pb & Ebw & Hpb).
  destruct (playBall_progress o s h Hwf Hc) as (s' & h' & E & _).
  exists bw, pb, s', h'. repeat (split; [done|]). intros q.
  unfold creditEarned. destruct (Z.eqb_spec o 5) as [->|Ho5]; simpl.
  - destruct (playBall_wicket_eq s h Hwf Hc) as (bw' & p & Ebw' & Hp & E').
    assert (bw' = bw) as -> by congruence. assert (p = pb) as -> by congruence.
    rewrite E' in E. injection E as <- <-.
    unfold credit. destruct (decide (q = bw)) as [->|Hne].
    + rewrite list_lookup_insert_eq by (by eapply lookup_lt_Some).
      rewrite Hpb, bool_decide_eq_true_2 by done. simpl.
      rewrite !(proj1 (addBall_credits _)). apply addWicket_credits.
    + rewrite list_lookup_insert_ne by done.
      rewrite bool_decide_eq_false_2 by done. simpl. lia.
  - rewrite (playBall_runs_no_credit o s s' h h' Hwf Ho Ho5 E q). lia.
Qed.

Lemma credits_come_from_bowler_wickets_witness :
  ∃ bw pb s' h',
    at_ (bowlingOrder Sample.bowlerB3) (currentBowler Sample.bowlerB3) = Some bw ∧
    Sample.allPlayers !! bw = Some pb ∧
    playBall 5 Sample.bowlerB3 Sample.allPlayers = Some (s', h') ∧
    ∀ q, credit h' q = credit Sample.allPlayers q + creditEarned 5 bw pb q.
Proof.
  apply (credits_come_from_bowler_wickets 5 Sample.bowlerB3 Sample.allPlayers).
  - by_compute.
  - reflexivity.
  - unfold ballOutcomes. set_solver.
Defined.

Lemma sound_addBall (p : Player.t) :
  0 ≤ Player.getMatchCredits p ≤ Player.getTotalCredits p →
  0 ≤ Player.getMatchCredits (Player.addBall p) ≤ Player.getTotalCredits (Player.addBall p).
Proof. destruct (addBall_credits p) as [-> ->]. done. Qed.

Lemma sound_addRuns (o : Z) (p : Player.t) :
  o ∈ ballOutcomes →
  0 ≤ Player.getMatchCredits p ≤ Player.getTotalCredits p →
  0 ≤ Player.getMatchCredits (Player.addRuns o p) ≤ Player.getTotalCredits (Player.addRuns o p).
Proof. intros Ho. destruct (addRuns_credits o p Ho) as [-> ->]. done. Qed.

Lemma sound_addWicket (p : Player.t) :
  0 ≤ Player.getMatchCredits p ≤ Player.getTotalCredits p →
  0 ≤ Player.getMatchCredits (Player.addWicket p) ≤ Player.getTotalCredits (Player.addWicket p).
Proof. destruct (addWicket_credits p) as [-> ->]. case_match; lia. Qed.

Lemma creditsSound_insert (h : Heap) (i : nat) (p : Player.t) :
  creditsSound h →
  0 ≤ Player.getMatchCredits p ≤ Player.getTotalCredits p →
  creditsSound (<[i := p]> h).
Proof. intros Hs Hp. by apply Forall_insert. Qed.

Lemma creditsSound_lookup (h : Heap) (i : nat) (p : Player.t) :
  creditsSound h → h !! i = Some p →
  0 ≤ Player.getMatchCredits p ≤ Player.getTotalCredits p.
Proof. intros Hs Hp. unfold creditsSound in Hs. rewrite Forall_lookup in Hs. by eapply Hs. Qed.

Lemma playBall_creditsSound (o : Z) (s s' : Innings.t) (h h' : Heap) :
  wf s h → o ∈ ballOutcomes → creditsSound h →
  playBall o s h = Some (s', h') → creditsSound h'.
Proof.
  intros Hwf Ho Hs E.
  destruct (playBall_cases o s s' h h' Hwf E)
    as [(_ & _ & ->)|[(_ & _ & bw & p & _ & Hp & _ & ->)|(_ & _ & st & ps & bw & pb & _ & Hps & _ & Hpb & _ & ->)]];
    [done| |].
  - apply creditsSound_insert; [done|].
    by apply sound_addBall, sound_addBall, sound_addWicket, (creditsSound_lookup h bw).
  - assert (Hs1 : creditsSound (<[st := Player.addBall (Player.addRuns o ps)]> h)).
    { apply creditsSound_insert; [done|].
      by apply sound_addBall, sound_addRuns, (creditsSound_lookup h st). }
    apply creditsSound_insert; [done|].
    apply sound_addBall. by eapply creditsSound_lookup.
Qed.

(** X7.  Credits stay sound and never go down.  If no player of the store
    has negative match credits or more match credits than career credits,
    the same holds after any sequence of balls that can be drawn, and no
    player has fewer match credits than before. *)
Theorem credits_sound_and_monotone (os : list Z) (s : Innings.t) (h : Heap) :
  wf s h → creditsSound h → Forall (λ o, o ∈ ballOutcomes) os →
  ∃ s' h',
    playBalls os s h = Some (s', h') ∧
    creditsSound h' ∧
    ∀ q, credit h q ≤ credit h' q.
Proof.
  revert s h. induction os as [|o os IH]; intros s h Hwf Hs Hos.
  - exists s, h. done.
  - apply Forall_cons in Hos as [Ho Hos].
    destruct (playBall_bowler o s h Hwf) as (s1 & h1 & E1 & Hwf1 & _).
    pose proof (playBall_creditsSound o s s1 h h1 Hwf Ho Hs E1) as Hs1.
    destruct (IH s1 h1 Hwf1 Hs1 Hos) as (s' & h' & E & Hs' & Hmono).
    exists s', h'. simpl. rewrite E1. simpl. repeat (split; [done|]).
    intros q. specialize (Hmono q).
    assert (credit h q ≤ credit h1 q); [|lia].
    destruct (isInningsComplete s) eqn:Hc.
    { rewrite playBall_complete in E1 by done. injection E1 as <- <-. lia. }
    destruct (credits_come_from_bowler_wickets o s h Hwf Hc Ho) as (bw & pb & s2 & h2 & _ & _ & E2 & Hq).
    rewrite E1 in E2. injection E2 as <- <-. rewrite Hq.
    unfold creditEarned. case_match; lia.
Qed.

Lemma credits_sound_and_monotone_witness :
  ∃ s' h',
    playBalls [5; 4; 5] Sample.bowlerB3 Sample.allPlayers = Some (s', h') ∧
    creditsSound h' ∧
    ∀ q, credit Sample.allPlayers q ≤ credit h' q.
Proof.
  apply (credits_sound_and_monotone [5; 4; 5] Sample.bowlerB3 Sample.allPlayers).
  - by_compute.
  - unfold creditsSound. by_compute.
  - unfold ballOutcomes. repeat constructor; set_solver.
Defined.

(** ** How the runs are booked, by the class of the striker *)

(** X8.  [addRuns] and [addBall] are virtual, and [playBall] calls them on
    the striker whatever the striker's class.  A [Batsman] on strike gets
    the runs as runs scored and a ball faced.  A [Bowler] on strike gets
    the runs as runs conceded and a ball bowled, and no runs scored.  An
    [AllRounder] on strike gets the runs scored and a ball bowled, and no
    ball faced. *)
Theorem runs_booked_by_class (o : Z) (s : Innings.t) (h : Heap) :
  wf s h → isInningsComplete s = false → o ≠ 5 →
  ∃ st p bw s' h' p',
    at_ (battingOrder s) (currentBatsman1 s) = Some st ∧ h !! st = Some p ∧
    at_ (bowlingOrder s) (currentBowler s) = Some bw ∧
    playBall o s h = Some (s', h') ∧
    (st ≠ bw →
       h' !! st = Some p' ∧
       match p with
       | Player.Batsman _ _ =>
           Player.getTotalRunsScored p' = Player.getTotalRunsScored p + o ∧
           Player.getTotalBallsFaced p' = Player.getTotalBallsFaced p + 1 ∧
           Player.getTotalBallsBowled p' = Player.getTotalBallsBowled p ∧
           Player.getTotalRunsConceded p' = Player.getTotalRunsConceded p
       | Player.Bowler _ _ =>
           Player.getTotalRunsScored p' = Player.getTotalRunsScored p ∧
           Player.getTotalBallsFaced p' = Player.getTotalBallsFaced p ∧
           Player.getTotalBallsBowled p' = Player.getTotalBallsBowled p + 1 ∧
           Player.getTotalRunsConceded p' = Player.getTotalRunsConceded p + o
       | Player.AllRounder _ _ _ =>
           Player.getTotalRunsScored p' = Player.getTotalRunsScored p + o ∧
           Player.getTotalBallsFaced p' = Player.getTotalBallsFaced p ∧
           Player.getTotalBallsBowled p' = Player.getTotalBallsBowled p + 1 ∧
           Player.getTotalRunsConceded p' = Player.getTotalRunsConceded p
       end).
Proof.
  intros Hwf Hc Ho.
  destruct (playBall_runs_eq o s h Hwf Hc Ho) as (st & p & bw & pb & Est & Hp & Ebw & Hpb & E).
  exists st, p, bw. eexists _, _, (Player.addBall (Player.addRuns o p)).
  repeat (split; [done|]). intros Hne. split.
  - rewrite list_lookup_insert_ne by done.
    apply list_lookup_insert_eq. by eapply lookup_lt_Some.
  - destruct p; done.
Qed.

Lemma runs_booked_by_class_witness :
  ∃ st p bw s' h' p',
    at_ (battingOrder Sample.first) (currentBatsman1 Sample.first) = Some st ∧
    Sample.allPlayers !! st = Some p ∧
    at_ (bowlingOrder Sample.first) (currentBowler Sample.first) = Some bw ∧
    playBall 4 Sample.first Sample.allPlayers = Some (s', h') ∧
    (st ≠ bw →
       h' !! st = Some p' ∧
       match p with
       | Player.Batsman _ _ =>
           Player.getTotalRunsScored p' = Player.getTotalRunsScored p + 4 ∧
           Player.getTotalBallsFaced p' = Player.getTotalBallsFaced p + 1 ∧
           Player.getTotalBallsBowled p' = Player.getTotalBallsBowled p ∧
           Player.getTotalRunsConceded p' = Player.getTotalRunsConceded p
       | Player.Bowler _ _ =>
           Player.getTotalRunsScored p' = Player.getTotalRunsScored p ∧
           Player.getTotalBallsFaced p' = Player.getTotalBallsFaced p ∧
           Player.getTotalBallsBowled p' = Player.getTotalBallsBowled p + 1 ∧
           Player.getTotalRunsConceded p' = Player.getTotalRunsConceded p + 4
       | Player.AllRounder _ _ _ =>
           Player.getTotalRunsScored p' = Player.getTotalRunsScored p + 4 ∧
           Player.getTotalBallsFaced p' = Player.getTotalBallsFaced p ∧
           Player.getTotalBallsBowled p' = Player.getTotalBallsBowled p + 1 ∧
           Player.getTotalRunsConceded p' = Player.getTotalRunsConceded p
       end).
Proof.
  apply (runs_booked_by_class 4 Sample.first Sample.allPlayers).
  - by_compute.
  - reflexivity.
  - lia.
Defined.

(** ** A bowling order of one *)

Lemma wicketBall_bowling (s s1 : Innings.t) (h h1 : Heap) :
  wicketBall s h = Some (s1, h1) →
  bowlingOrder s1 = bowlingOrder s ∧ currentBowler s1 = currentBowler s ∧
  currentOverBalls s1 = currentOverBalls s.
Proof.
  unfold wicketBall. intros E.
  destruct (at_ (bowlingOrder s) (currentBowler s)) as [bw|]; [simpl in E|done].
  destruct (call Player.addWicket bw h) as [h2|]; [simpl in E|done].
  destruct (call Player.addBall bw h2) as [h3|]; [simpl in E|done].
  destruct (printCommentary _) as [e|]; [simpl in E|done].
  injection E as <- <-. unfold changeBatsman. repeat case_match; done.
Qed.

Lemma runsBall_bowling (o : Z) (s s1 : Innings.t) (h h1 : Heap) :
  runsBall o s h = Some (s1, h1) →
  bowlingOrder s1 = bowlingOrder s ∧ currentBowler s1 = currentBowler s ∧
  currentOverBalls s1 = currentOverBalls s.
Proof.
  unfold runsBall. intros E.
  destruct (at_ (battingOrder s) (currentBatsman1 s)) as [st|]; [simpl in E|done].
  destruct (call (Player.addRuns o) st h) as [h2|]; [simpl in E|done].
  destruct (call Player.addBall st h2) as [h3|]; [simpl in E|done].
  destruct (printCommentary _) as [e|]; [simpl in E|done].
  injection E as <- <-. case_match; done.
Qed.

(** X9.  With a single player in the bowling order, the sixth ball of the
    first over never returns: [changeBowler] looks for an index other than
    the one that just bowled, and there is none.  ([None] is the run that
    does not end.) *)
Theorem single_bowler_over_never_ends (o : Z) (s : Innings.t) (h : Heap) :
  length (bowlingOrder s) = 1%nat →
  isInningsComplete s = false →
  currentOverBalls s = ballsPerOver - 1 →
  playBall o s h = None.
Proof.
  intros Hn Hc Hb. unfold playBall. rewrite Hc.
  assert (Hcount : ∀ s1 h1,
    bowlingOrder s1 = bowlingOrder s ∧ currentBowler s1 = currentBowler s ∧
    currentOverBalls s1 = currentOverBalls s → countBall s1 h1 = None).
  { intros s1 h1 (Eo & Ec & Eb). unfold countBall. simpl.
    destruct (at_ (bowlingOrder s1) (currentBowler s1)) as [bw|] eqn:Ebw; [simpl|done].
    apply at_inv in Ebw as [Hrange _]. rewrite Eo, Hn in Hrange.
    destruct (call Player.addBall bw h1) as [h2|]; [simpl|done].
    rewrite Eb, Hb. simpl.
    unfold changeBowler. simpl. rewrite Eo, Hn. simpl.
    replace (currentBowler s1) with 0 by lia. done. }
  destruct (o =? 5).
  - destruct (wicketBall s h) as [[s1 h1]|] eqn:E; [simpl|done].
    by apply Hcount, (wicketBall_bowling s s1 h h1).
  - destruct (runsBall o s h) as [[s1 h1]|] eqn:E; [simpl|done].
    by apply Hcount, (runsBall_bowling o s s1 h h1).
Qed.

Lemma single_bowler_over_never_ends_witness :
  playBall 0
    (Innings.mk [0; 1; 2; 3; 4]%nat [5%nat] 0 1 0 (-1) 0 0 0 5 5 ∅ ∅)
    Sample.allPlayers = None.
Proof.
  apply (single_bowler_over_never_ends 0
           (Innings.mk [0; 1; 2; 3; 4]%nat [5%nat] 0 1 0 (-1) 0 0 0 5 5 ∅ ∅)
           Sample.allPlayers).
  - reflexivity.
  - reflexivity.
  - reflexivity.
Defined.

(** ** Setting an innings up *)

Lemma setBatsmen_loop_range (h : Heap) (striker nonStriker : string) (v : list nat) :
  ∀ (i b1 b2 b1' b2' : Z),
    setBatsmen_loop h striker nonStriker v i b1 b2 = Some (b1', b2') →
    (b1' = b1 ∨ i ≤ b1' < i + Z.of_nat (length v)) ∧
    (b2' = b2 ∨ i ≤ b2' < i + Z.of_nat (length v)).
Proof.
  induction v as [|pid v IH]; intros i b1 b2 b1' b2' E; simpl in E.
  - injection E as <- <-. split; by left.
  - destruct (h !! pid) as [p|]; [simpl in E|done].
    apply IH in E as [H1 H2]. simpl length. split.
    + destruct H1 as [->|?]; [|right; lia].
      destruct (String.eqb (Player.getName p) striker); [right; lia|by left].
    + destruct H2 as [->|?]; [|right; lia].
      destruct (String.eqb (Player.getName p) nonStriker); [right; lia|by left].
Qed.

Lemma setBowler_loop_range (h : Heap) (bowlerName : string) (v : list nat) :
  ∀ (i b b' : Z),
    setBowler_loop h bowlerName v i b = Some b' →
    b' = b ∨ i ≤ b' < i + Z.of_nat (length v).
Proof.
  induction v as [|pid v IH]; intros i b b' E; simpl in E.
  - injection E as <-. by left.
  - destruct (h !! pid) as [p|]; [simpl in E|done].
    apply IH in E. simpl length.
    destruct E as [->|?]; [|right; lia].
    destruct (String.eqb (Player.getName p) bowlerName); [right; lia|by left].
Qed.

(** The constructor followed by the setup, for any names. *)
Lemma setup_new_wf (h : Heap) (batting bowling : list nat)
    (striker nonStriker bowlerName : string) :
  inStore h batting → inStore h bowling →
  (2 ≤ length batting)%nat → (2 ≤ length bowling)%nat →
  ∃ s1 s2,
    setBatsmen h striker nonStriker (Innings.new batting bowling) = Some s1 ∧
    setBowler h bowlerName s1 = Some s2 ∧
    wf s2 h ∧
    battingOrder s2 = batting ∧ bowlingOrder s2 = bowling ∧
    totalRuns s2 = 0 ∧ totalWickets s2 = 0 ∧ totalOvers s2 = 0 ∧
    totalBalls s2 = 0 ∧ currentOverBalls s2 = 0.
Proof.
  intros Hbat Hbowl Hn1 Hn2.
  destruct (setBatsmen_loop_absent h striker nonStriker batting 0 0 1 Hbat)
    as (b1 & b2 & E1 & _).
  destruct (setBowler_loop_absent h bowlerName bowling 0 0 Hbowl) as (b & E2 & _).
  pose proof (setBatsmen_loop_range _ _ _ _ _ _ _ _ _ E1) as [R1 R2].
  pose proof (setBowler_loop_range _ _ _ _ _ _ E2) as R3.
  exists (withBatsmen b1 b2 (Innings.new batting bowling)),
    (withBowlers b (-1) (withBatsmen b1 b2 (Innings.new batting bowling))).
  unfold setBatsmen, setBowler. simpl. rewrite E1. simpl. rewrite E2. simpl.
  repeat (split; [done|]). split; [|done].
  unfold wf. simpl. unfold ballsPerOver. repeat split; try done; lia.
Qed.

(** X10.  Whatever names are typed in, an innings built by the constructor
    from two teams of at least two players and then set up is well formed:
    the striker, the non-striker and the bowler are positions of their
    orders, and the counters are still zero. *)
Theorem setup_is_well_formed (h : Heap) (batting bowling : list nat)
    (striker nonStriker bowlerName : string) :
  inStore h batting → inStore h bowling →
  (2 ≤ length batting)%nat → (2 ≤ length bowling)%nat →
  ∃ s1 s2,
    setBatsmen h striker nonStriker (Innings.new batting bowling) = Some s1 ∧
    setBowler h bowlerName s1 = Some s2 ∧
    wf s2 h ∧
    battingOrder s2 = batting ∧ bowlingOrder s2 = bowling ∧
    totalRuns s2 = 0 ∧ totalWickets s2 = 0 ∧ totalOvers s2 = 0 ∧
    totalBalls s2 = 0 ∧ currentOverBalls s2 = 0.
Proof. apply setup_new_wf. Qed.

Lemma setup_is_well_formed_witness :
  ∃ s1 s2,
    setBatsmen Sample.allPlayers "a4" "nobody"
      (Innings.new [0; 1; 2; 3; 4]%nat [5; 6; 7; 8; 9]%nat) = Some s1 ∧
    setBowler Sample.allPlayers "b3" s1 = Some s2 ∧
    wf s2 Sample.allPlayers ∧
    battingOrder s2 = [0; 1; 2; 3; 4]%nat ∧ bowlingOrder s2 = [5; 6; 7; 8; 9]%nat ∧
    totalRuns s2 = 0 ∧ totalWickets s2 = 0 ∧ totalOvers s2 = 0 ∧
    totalBalls s2 = 0 ∧ currentOverBalls s2 = 0.
Proof.
  apply (setup_is_well_formed Sample.allPlayers [0; 1; 2; 3; 4]%nat [5; 6; 7; 8; 9]%nat
           "a4" "nobody" "b3").
  - unfold inStore. by_compute.
  - unfold inStore. by_compute.
  - simpl. lia.
  - simpl. lia.
Defined.

Lemma setBowler_loop_last (h : Heap) (bowlerName : string) (v : list nat) :
  ∀ (i b : Z) (k : nat) (pid : nat) (p : Player.t),
    inStore h v →
    v !! k = Some pid → h !! pid = Some p → Player.getName p = bowlerName →
    (∀ j q pq, (k < j)%nat → v !! j = Some q → h !! q = Some pq →
               Player.getName pq ≠ bowlerName) →
    setBowler_loop h bowlerName v i b = Some (i + Z.of_nat k).
Proof.
  induction v as [|x v IH]; intros i b k pid p Hv Hk Hp Hname Hlast; [done|].
  apply Forall_cons in Hv as [Hx Hv]. simpl.
  destruct k as [|k]; simpl in Hk.
  - injection Hk as ->. rewrite Hp. simpl.
    rewrite (proj2 (String.eqb_eq _ _) Hname).
    destruct (setBowler_loop_absent h bowlerName v (i + 1) i Hv) as (b' & E & Hab).
    rewrite E, Hab; [f_equal; lia|].
    intros q pq Hq Hpq. apply list_elem_of_lookup in Hq as [j Hj].
    apply (Hlast (S j) q pq); [lia|done|done].
  - destruct (lookup_lt_is_Some_2 h x Hx) as [px Hpx]. rewrite Hpx. simpl.
    rewrite (IH (i + 1) _ k pid p Hv Hk Hp Hname).
    + f_equal. lia.
    + intros j q pq Hj Hq. apply (Hlast (S j) q pq). lia. done.
Qed.

(** X11.  [setBowler] does not stop at the first match: the opening bowler
    is the last player of the bowling order with the name typed in. *)
Theorem setBowler_takes_last_match (h : Heap) (bowlerName : string) (s : Innings.t)
    (k : nat) (pid : nat) (p : Player.t) :
  inStore h (bowlingOrder s) →
  bowlingOrder s !! k = Some pid → h !! pid = Some p → Player.getName p = bowlerName →
  (∀ j q pq, (k < j)%nat → bowlingOrder s !! j = Some q → h !! q = Some pq →
             Player.getName pq ≠ bowlerName) →
  ∃ s', setBowler h bowlerName s = Some s' ∧ currentBowler s' = Z.of_nat k.
Proof.
  intros Hv Hk Hp Hname Hlast. unfold setBowler.
  rewrite (setBowler_loop_last h bowlerName (bowlingOrder s) 0 (currentBowler s)
             k pid p Hv Hk Hp Hname Hlast).
  simpl. eexists. split; [done|]. simpl. lia.
Qed.

(** ** Looking a player up in a team *)

(** X12.  [findPlayer] returns the first player of the playing five with
    the name, and [nullptr] exactly when no player has it. *)
Theorem findPlayer_first_or_null (h : Heap) (playerName : string) (tm : Team.t) :
  inStore h (Team.playing5 tm) →
  ∃ r,
    Team.findPlayer h playerName tm = Some r ∧
    match r with
    | None => absent h playerName (Team.playing5 tm)
    | Some pid =>
        ∃ (i : nat) (p : Player.t),
          Team.playing5 tm !! i = Some pid ∧ h !! pid = Some p ∧
          Player.getName p = playerName ∧
          ∀ j q pq, (j < i)%nat → Team.playing5 tm !! j = Some q → h !! q = Some pq →
                    Player.getName pq ≠ playerName
    end.
Proof.
  unfold Team.findPlayer. generalize (Team.playing5 tm). clear tm.
  intros v. induction v as [|x v IH]; intros Hv.
  - exists None. split; [done|]. intros q pq Hq. by apply elem_of_nil in Hq.
  - apply Forall_cons in Hv as [Hx Hv].
    destruct (lookup_lt_is_Some_2 h x Hx) as [px Hpx]. simpl. rewrite Hpx. simpl.
    destruct (String.eqb_spec (Player.getName px) playerName) as [En|En].
    + exists (Some x). split; [done|]. exists 0%nat, px. repeat (split; [done|]).
      intros j q pq Hj. lia.
    + destruct (IH Hv) as (r & -> & Hr). exists r. split; [done|].
      destruct r as [pid|].
      * destruct Hr as (i & p & Hi & Hp & Hn & Hfirst).
        exists (S i), p. repeat (split; [done|]).
        intros [|j] q pq Hj; simpl.
        -- intros [= <-] Hq. congruence.
        -- apply Hfirst. lia.
      * intros q pq Hq Hpq. apply elem_of_cons in Hq as [->|Hq].
        -- congruence.
        -- by apply (Hr q pq).
Qed.

Lemma findPlayer_first_or_null_witness :
  ∃ r,
    Team.findPlayer Sample.allPlayers "a3"
      (Team.selectPlaying5
         (foldl (λ tm p, Team.addPlayer p tm) (Team.new "a" "A") [0; 1; 2; 3; 4]%nat))
      = Some r ∧
    match r with
    | None =>
        absent Sample.allPlayers "a3"
          (Team.playing5
             (Team.selectPlaying5
                (foldl (λ tm p, Team.addPlayer p tm) (Team.new "a" "A") [0; 1; 2; 3; 4]%nat)))
    | Some pid =>
        ∃ (i : nat) (p : Player.t),
          Team.playing5
            (Team.selectPlaying5
               (foldl (λ tm p, Team.addPlayer p tm) (Team.new "a" "A") [0; 1; 2; 3; 4]%nat))
            !! i = Some pid ∧
          Sample.allPlayers !! pid = Some p ∧
          Player.getName p = "a3" ∧
          ∀ j q pq, (j < i)%nat →
            Team.playing5
              (Team.selectPlaying5
                 (foldl (λ tm p, Team.addPlayer p tm) (Team.new "a" "A") [0; 1; 2; 3; 4]%nat))
              !! j = Some q →
            Sample.allPlayers !! q = Some pq →
            Player.getName pq ≠ "a3"
    end.
Proof.
  apply (findPlayer_first_or_null Sample.allPlayers "a3").
  unfold inStore. by_compute.
Defined.

Lemma setBowler_takes_last_match_witness :
  ∃ s', setBowler Sample.allPlayers "b3" Sample.first = Some s' ∧
        currentBowler s' = Z.of_nat 2.
Proof.
  apply (setBowler_takes_last_match Sample.allPlayers "b3" Sample.first 2 7%nat
           (Player.newBowler "b3" 27)).
  - unfold inStore. by_compute.
  - reflexivity.
  - reflexivity.
  - reflexivity.
  - intros j q pq Hj Hq Hpq.
    destruct j as [|[|[|[|[|j]]]]]; simpl in Hq; try lia; try discriminate;
      injection Hq as <-; vm_compute in Hpq; injection Hpq as <-; vm_compute; discriminate.
Defined.

(** ** Points and match counters *)

Lemma callTeam_eq (f : Team.t → Team.t) (tid : nat) (ts : Teams) (tm : Team.t) :
  ts !! tid = Some tm → callTeam f tid ts = Some (<[tid := f tm]> ts).
Proof. intros E. unfold callTeam. by rewrite E. Qed.

Lemma totalPoints_insert (ts : Teams) :
  ∀ (i : nat) (tm tm' : Team.t),
    ts !! i = Some tm →
    totalPoints (<[i := tm']> ts) = totalPoints ts - Team.points tm + Team.points tm'.
Proof.
  unfold totalPoints. induction ts as [|x ts IH]; intros i tm tm' Hi; [done|].
  destruct i as [|i]; simpl in *.
  - injection Hi as ->. lia.
  - rewrite (IH i tm tm' Hi). lia.
Qed.

(** A call on a team of the store: the books are kept if the method keeps
    them, the store keeps its length, and the points move by what the method
    adds. *)
Lemma callTeam_spec (f : Team.t → Team.t) (d : Z) (tid : nat) (ts : Teams) :
  (tid < length ts)%nat →
  (∀ tm, Team.points (f tm) = Team.points tm + d) →
  ∃ ts',
    callTeam f tid ts = Some ts' ∧ length ts' = length ts ∧
    totalPoints ts' = totalPoints ts + d ∧
    (∀ i tm', ts' !! i = Some tm' →
       ∃ tm, ts !! i = Some tm ∧ ((i ≠ tid ∧ tm' = tm) ∨ (i = tid ∧ tm' = f tm))).
Proof.
  intros Hlt Hd. destruct (lookup_lt_is_Some_2 ts tid Hlt) as [tm Htm].
  exists (<[tid := f tm]> ts). split; [by apply callTeam_eq|].
  split; [by rewrite length_insert|]. split.
  - rewrite (totalPoints_insert ts tid tm _ Htm), Hd. lia.
  - intros i tm' Hi. destruct (decide (i = tid)) as [->|Hne].
    + rewrite list_lookup_insert_eq in Hi by done. injection Hi as <-.
      exists tm. split; [done|]. by right.
    + rewrite list_lookup_insert_ne in Hi by done. exists tm'. split; [done|]. by left.
Qed.

Lemma points_addPoints (d : Z) (tm : Team.t) :
  Team.points (Team.addPoints d tm) = Team.points tm + d.
Proof. done. Qed.

Lemma points_updateMatchResult (r : MatchResult) (tm : Team.t) :
  Team.points (Team.updateMatchResult r tm) = Team.points tm + 0.
Proof. destruct r; simpl; lia. Qed.

(** X13.  [determineResult] is defined for any two teams of the store and
    gives two points to the match, whatever the result: the points of all
    teams together grow by exactly two.  The result is [WIN] exactly when
    the first innings has strictly more runs, [LOSS] exactly when it has
    strictly fewer, and [TIE] on equal runs, never [NO_RESULT].  And if the
    books of every team agreed before (points are twice the wins plus the
    ties, matches played are wins plus losses plus ties), they agree
    after. *)
Theorem determineResult_keeps_books (m : Match.t) (team1 team2 : nat) (ts : Teams) :
  (team1 < length ts)%nat → (team2 < length ts)%nat →
  ∃ r ts',
    Scoring.determineResult m team1 team2 ts = Some (r, ts') ∧
    length ts' = length ts ∧
    totalPoints ts' = totalPoints ts + 2 ∧
    (r = WIN ↔ totalRuns (Match.innings2 m) < totalRuns (Match.innings1 m)) ∧
    (r = LOSS ↔ totalRuns (Match.innings1 m) < totalRuns (Match.innings2 m)) ∧
    (r = TIE ↔ totalRuns (Match.innings1 m) = totalRuns (Match.innings2 m)) ∧
    (Forall booksAgree ts → Forall booksAgree ts').
Proof.
  intros H1 H2. unfold Scoring.determineResult.
  destruct (Z.ltb_spec (totalRuns (Match.innings2 m)) (totalRuns (Match.innings1 m))) as [Hw|Hw];
    [|destruct (Z.ltb_spec (totalRuns (Match.innings1 m)) (totalRuns (Match.innings2 m))) as [Hl|Hl]].
  - destruct (callTeam_spec (Team.updateMatchResult WIN) 0 team1 ts H1
                (points_updateMatchResult WIN)) as (ts1 & -> & L1 & P1 & F1).
    destruct (callTeam_spec (Team.updateMatchResult LOSS) 0 team2 ts1 ltac:(lia)
                (points_updateMatchResult LOSS)) as (ts2 & E2 & L2 & P2 & F2).
    destruct (callTeam_spec (Team.addPoints 2) 2 team1 ts2 ltac:(lia)
                (points_addPoints 2)) as (ts3 & E3 & L3 & P3 & F3).
    simpl. rewrite E2. simpl. rewrite E3. simpl.
    exists WIN, ts3. split; [done|]. split; [lia|]. split; [lia|].
    repeat (split; [split; intros; first [done|lia]|]).
    rewrite !Forall_lookup. intros Hb i tm3 Hi.
    destruct (F3 i tm3 Hi) as (tm2 & Hi2 & C3). destruct (F2 i tm2 Hi2) as (tm1 & Hi1 & C2).
    destruct (F1 i tm1 Hi1) as (tm & Hi0 & C1). specialize (Hb i tm Hi0).
    destruct Hb as [Hb1 Hb2].
    destruct C1 as [[? ->]|[? ->]], C2 as [[? ->]|[? ->]], C3 as [[? ->]|[? ->]];
      try lia; split; simpl; lia.
  - destruct (callTeam_spec (Team.updateMatchResult LOSS) 0 team1 ts H1
                (points_updateMatchResult LOSS)) as (ts1 & -> & L1 & P1 & F1).
    destruct (callTeam_spec (Team.updateMatchResult WIN) 0 team2 ts1 ltac:(lia)
                (points_updateMatchResult WIN)) as (ts2 & E2 & L2 & P2 & F2).
    destruct (callTeam_spec (Team.addPoints 2) 2 team2 ts2 ltac:(lia)
                (points_addPoints 2)) as (ts3 & E3 & L3 & P3 & F3).
    simpl. rewrite E2. simpl. rewrite E3. simpl.
    exists LOSS, ts3. split; [done|]. split; [lia|]. split; [lia|].
    repeat (split; [split; intros; first [done|lia]|]).
    rewrite !Forall_lookup. intros Hb i tm3 Hi.
    destruct (F3 i tm3 Hi) as (tm2 & Hi2 & C3). destruct (F2 i tm2 Hi2) as (tm1 & Hi1 & C2).
    destruct (F1 i tm1 Hi1) as (tm & Hi0 & C1). specialize (Hb i tm Hi0).
    destruct Hb as [Hb1 Hb2].
    destruct C1 as [[? ->]|[? ->]], C2 as [[? ->]|[? ->]], C3 as [[? ->]|[? ->]];
      try lia; split; simpl; lia.
  - destruct (callTeam_spec (Team.updateMatchResult TIE) 0 team1 ts H1
                (points_updateMatchResult TIE)) as (ts1 & -> & L1 & P1 & F1).
    destruct (callTeam_spec (Team.updateMatchResult TIE) 0 team2 ts1 ltac:(lia)
                (points_updateMatchResult TIE)) as (ts2 & E2 & L2 & P2 & F2).
    destruct (callTeam_spec (Team.addPoints 1) 1 team1 ts2 ltac:(lia)
                (points_addPoints 1)) as (ts3 & E3 & L3 & P3 & F3).
    destruct (callTeam_spec (Team.addPoints 1) 1 team2 ts3 ltac:(lia)
                (points_addPoints 1)) as (ts4 & E4 & L4 & P4 & F4).
    simpl. rewrite E2. simpl. rewrite E3. simpl. rewrite E4. simpl.
    exists TIE, ts4. split; [done|]. split; [lia|]. split; [lia|].
    repeat (split; [split; intros; first [done|lia]|]).
    rewrite !Forall_lookup. intros Hb i tm4 Hi.
    destruct (F4 i tm4 Hi) as (tm3 & Hi3 & C4).
    destruct (F3 i tm3 Hi3) as (tm2 & Hi2 & C3). destruct (F2 i tm2 Hi2) as (tm1 & Hi1 & C2).
    destruct (F1 i tm1 Hi1) as (tm & Hi0 & C1). specialize (Hb i tm Hi0).
    destruct Hb as [Hb1 Hb2].
    destruct C1 as [[? ->]|[? ->]], C2 as [[? ->]|[? ->]], C3 as [[? ->]|[? ->]],
      C4 as [[? ->]|[? ->]]; try lia; split; simpl; lia.
Qed.

Lemma determineResult_keeps_books_witness :
  ∃ r ts',
    Scoring.determineResult Sample.match1 0 1
      [Team.new "a" "A"; Team.new "b" "B"] = Some (r, ts') ∧
    length ts' = length [Team.new "a" "A"; Team.new "b" "B"] ∧
    totalPoints ts' = totalPoints [Team.new "a" "A"; Team.new "b" "B"] + 2 ∧
    (r = WIN ↔ totalRuns (Match.innings2 Sample.match1) < totalRuns (Match.innings1 Sample.match1)) ∧
    (r = LOSS ↔ totalRuns (Match.innings1 Sample.match1) < totalRuns (Match.innings2 Sample.match1)) ∧
    (r = TIE ↔ totalRuns (Match.innings1 Sample.match1) = totalRuns (Match.innings2 Sample.match1)) ∧
    (Forall booksAgree [Team.new "a" "A"; Team.new "b" "B"] → Forall booksAgree ts').
Proof.
  apply (determineResult_keeps_books Sample.match1 0 1 [Team.new "a" "A"; Team.new "b" "B"]).
  - simpl. lia.
  - simpl. lia.
Defined.

Lemma determineResult_result (m : Match.t) (team1 team2 : nat) (ts : Teams) :
  (team1 < length ts)%nat → (team2 < length ts)%nat →
  ∃ ts',
    Scoring.determineResult m team1 team2 ts =
      Some (if totalRuns (Match.innings2 m) <? totalRuns (Match.innings1 m) then WIN
            else if totalRuns (Match.innings1 m) <? totalRuns (Match.innings2 m) then LOSS
            else TIE, ts').
Proof.
  intros H1 H2. unfold Scoring.determineResult.
  assert (Hcall : ∀ f tid (ts0 : Teams), (tid < length ts0)%nat →
            ∃ ts1, callTeam f tid ts0 = Some ts1 ∧ length ts1 = length ts0).
  { intros f tid ts0 Hlt. destruct (lookup_lt_is_Some_2 ts0 tid Hlt) as [tm Htm].
    exists (<[tid := f tm]> ts0). split; [by apply callTeam_eq|by rewrite length_insert]. }
  repeat case_match.
  - destruct (Hcall (Team.updateMatchResult WIN) team1 ts H1) as (ts1 & -> & L1). simpl.
    destruct (Hcall (Team.updateMatchResult LOSS) team2 ts1 ltac:(lia)) as (ts2 & -> & L2). simpl.
    destruct (Hcall (Team.addPoints 2) team1 ts2 ltac:(lia)) as (ts3 & -> & L3). simpl.
    by exists ts3.
  - destruct (Hcall (Team.updateMatchResult LOSS) team1 ts H1) as (ts1 & -> & L1). simpl.
    destruct (Hcall (Team.updateMatchResult WIN) team2 ts1 ltac:(lia)) as (ts2 & -> & L2). simpl.
    destruct (Hcall (Team.addPoints 2) team2 ts2 ltac:(lia)) as (ts3 & -> & L3). simpl.
    by exists ts3.
  - destruct (Hcall (Team.updateMatchResult TIE) team1 ts H1) as (ts1 & -> & L1). simpl.
    destruct (Hcall (Team.updateMatchResult TIE) team2 ts1 ltac:(lia)) as (ts2 & -> & L2). simpl.
    destruct (Hcall (Team.addPoints 1) team1 ts2 ltac:(lia)) as (ts3 & -> & L3). simpl.
    destruct (Hcall (Team.addPoints 1) team2 ts3 ltac:(lia)) as (ts4 & -> & L4). simpl.
    by exists ts4.
Qed.

(** X14.  [getWinner], on the result that [determineResult] stored, is the
    team whose innings has strictly more runs, and [nullptr] exactly when
    the two innings have the same runs. *)
Theorem getWinner_has_more_runs (m : Match.t) (team1 team2 : nat) (ts : Teams) :
  (team1 < length ts)%nat → (team2 < length ts)%nat →
  ∃ r ts',
    Scoring.determineResult m team1 team2 ts = Some (r, ts') ∧
    (Scoring.getWinner r team1 team2 = None ↔
       totalRuns (Match.innings1 m) = totalRuns (Match.innings2 m)) ∧
    (totalRuns (Match.innings2 m) < totalRuns (Match.innings1 m) →
       Scoring.getWinner r team1 team2 = Some team1) ∧
    (totalRuns (Match.innings1 m) < totalRuns (Match.innings2 m) →
       Scoring.getWinner r team1 team2 = Some team2).
Proof.
  intros H1 H2.
  destruct (determineResult_result m team1 team2 ts H1 H2) as (ts' & E).
  eexists _, ts'. split; [exact E|].
  destruct (Z.ltb_spec (totalRuns (Match.innings2 m)) (totalRuns (Match.innings1 m)));
    [|destruct (Z.ltb_spec (totalRuns (Match.innings1 m)) (totalRuns (Match.innings2 m)))];
    simpl; repeat split; intros; first [done|lia].
Qed.

Lemma getWinner_has_more_runs_witness :
  ∃ r ts',
    Scoring.determineResult Sample.match1 0 1
      [Team.new "a" "A"; Team.new "b" "B"] = Some (r, ts') ∧
    (Scoring.getWinner r 0 1 = None ↔
       totalRuns (Match.innings1 Sample.match1) = totalRuns (Match.innings2 Sample.match1)) ∧
    (totalRuns (Match.innings2 Sample.match1) < totalRuns (Match.innings1 Sample.match1) →
       Scoring.getWinner r 0 1 = Some 0%nat) ∧
    (totalRuns (Match.innings1 Sample.match1) < totalRuns (Match.innings2 Sample.match1) →
       Scoring.getWinner r 0 1 = Some 1%nat).
Proof.
  apply (getWinner_has_more_runs Sample.match1 0 1 [Team.new "a" "A"; Team.new "b" "B"]).
  - simpl. lia.
  - simpl. lia.
Defined.

(** ** The fixtures *)

(** X15.  [generateFixtures] makes a single round-robin: one match for
    every pair of an earlier and a later team of the list, and no other
    match, so [n] teams play [n * (n - 1) / 2] matches; the earlier team
    bats first. *)
Theorem fixtures_round_robin (teams : list (list nat)) :
  (2 * length (Tournament.generateFixtures teams) = length teams * (length teams - 1))%nat ∧
  ∀ m, m ∈ Tournament.generateFixtures teams ↔
       ∃ (i j : nat) (ti tj : list nat),
         (i < j)%nat ∧ teams !! i = Some ti ∧ teams !! j = Some tj ∧ m = Match.new ti tj.
Proof.
  induction teams as [|t later [IHlen IHin]]; simpl.
  - split; [done|]. intros m. split; [intros Hm; by apply elem_of_nil in Hm|].
    intros (i & j & ti & tj & _ & Hi & _). done.
  - split.
    + rewrite length_app, length_map. nia.
    + intros m. rewrite elem_of_app, list_elem_of_fmap, IHin. split.
      * intros [(tj & -> & Htj)|(i & j & ti & tj & Hlt & Hi & Hj & ->)].
        -- apply list_elem_of_lookup in Htj as [j Hj].
           exists 0%nat, (S j), t, tj. repeat split; try done. lia.
        -- exists (S i), (S j), ti, tj. repeat split; try done. lia.
      * intros (i & j & ti & tj & Hlt & Hi & Hj & ->).
        destruct j as [|j]; [lia|]. simpl in Hj.
        destruct i as [|i]; simpl in Hi.
        -- injection Hi as ->. left. exists tj. split; [done|].
           by eapply list_elem_of_lookup_2.
        -- right. exists i, j, ti, tj. repeat split; try done. lia.
Qed.

(** ** The award scans *)

Lemma scan_scanBy (h : Heap) (v : list nat) :
  ∀ best mx, scan h v best mx = Statistics.scanBy Player.getMatchCredits h v best mx.
Proof.
  induction v as [|pid v IH]; intros best mx; simpl; [done|].
  destruct (h !! pid) as [p|]; simpl; [|done]. case_match; apply IH.
Qed.

(** The scan for any credits: defined on pointers of the store; the running
    maximum only grows and bounds every player scanned; and either nothing
    changed, or the best is now the first player with the final maximum. *)
Lemma scanBy_spec (get : Player.t → Z) (h : Heap) (v : list nat) :
  ∀ (best : option nat) (mx : Z),
    inStore h v →
    ∃ best' mx',
      Statistics.scanBy get h v best mx = Some (best', mx') ∧
      mx ≤ mx' ∧
      (∀ j q pq, v !! j = Some q → h !! q = Some pq → get pq ≤ mx') ∧
      ((best' = best ∧ mx' = mx) ∨
       (∃ (i : nat) (pid : nat) (p : Player.t),
          v !! i = Some pid ∧ h !! pid = Some p ∧ best' = Some pid ∧
          get p = mx' ∧ mx < mx' ∧
          ∀ j q pq, (j < i)%nat → v !! j = Some q → h !! q = Some pq → get pq < mx')).
Proof.
  induction v as [|x v IH]; intros best mx Hv.
  - exists best, mx. simpl. split; [done|]. split; [lia|]. split; [done|]. by left.
  - apply Forall_cons in Hv as [Hx Hv].
    destruct (lookup_lt_is_Some_2 h x Hx) as [px Hpx].
    simpl. rewrite Hpx. simpl.
    destruct (Z.ltb_spec mx (get px)) as [Hlt|Hge].
    + destruct (IH (Some x) (get px) Hv) as (best' & mx' & -> & Hle & Hall & Hcase).
      exists best', mx'. split; [done|]. split; [lia|]. split.
      { intros [|j] q pq; simpl; [intros [= <-] Hq|apply Hall].
        assert (pq = px) as -> by congruence. lia. }
      right. destruct Hcase as [[-> ->]|(i & a & pa & Ei & Hpa & -> & Ea & Hgt & Hbefore)].
      * exists 0%nat, x, px. simpl. repeat split; try done. intros j q pq Hj. lia.
      * exists (S i), a, pa. simpl. repeat split; try done; [lia|].
        intros [|j] q pq Hj; simpl; [intros [= <-] Hq|apply Hbefore; lia].
        assert (pq = px) as -> by congruence. lia.
    + destruct (IH best mx Hv) as (best' & mx' & -> & Hle & Hall & Hcase).
      exists best', mx'. split; [done|]. split; [lia|]. split.
      { intros [|j] q pq; simpl; [intros [= <-] Hq|apply Hall].
        assert (pq = px) as -> by congruence. lia. }
      destruct Hcase as [[-> ->]|(i & a & pa & Ei & Hpa & -> & Ea & Hgt & Hbefore)]; [by left|].
      right. exists (S i), a, pa. simpl. repeat split; try done.
      intros [|j] q pq Hj; simpl; [intros [= <-] Hq|apply Hbefore; lia].
      assert (pq = px) as -> by congruence. lia.
Qed.

(** X16.  [getPlayerOfTournament] returns [nullptr] exactly when it is
    given no player; otherwise, career credits being never negative, it
    returns the first player of the list with the highest career
    credits. *)
Theorem player_of_tournament (h : Heap) (players : list nat) :
  inStore h players →
  (∀ q p, h !! q = Some p → 0 ≤ Player.getTotalCredits p) →
  ∃ r,
    Statistics.getPlayerOfTournament h players = Some r ∧
    (r = None ↔ players = []) ∧
    (∀ pid, r = Some pid → firstBestBy Player.getTotalCredits h players pid).
Proof.
  intros Hv Hpos. unfold Statistics.getPlayerOfTournament.
  destruct (scanBy_spec Player.getTotalCredits h players None (-1) Hv)
    as (best' & mx' & -> & _ & Hall & Hcase).
  simpl. exists best'. split; [done|].
  destruct Hcase as [[-> ->]|(i & a & pa & Ei & Hpa & -> & Ea & _ & Hbefore)].
  - split; [|done]. split; [|done]. intros _.
    destruct players as [|q v]; [done|]. exfalso.
    apply Forall_cons in Hv as [Hq _].
    destruct (lookup_lt_is_Some_2 h q Hq) as [pq Hpq].
    specialize (Hall 0%nat q pq eq_refl Hpq). specialize (Hpos q pq Hpq). lia.
  - split.
    + split; [done|]. intros ->. done.
    + intros pid [= <-]. exists i, pa. rewrite Ea. done.
Qed.

Lemma player_of_tournament_witness :
  ∃ r,
    Statistics.getPlayerOfTournament Sample.allPlayers (seq 0 20) = Some r ∧
    (r = None ↔ seq 0 20 = []) ∧
    (∀ pid, r = Some pid →
       firstBestBy Player.getTotalCredits Sample.allPlayers (seq 0 20) pid).
Proof.
  apply (player_of_tournament Sample.allPlayers (seq 0 20)).
  - unfold inStore. by_compute.
  - intros q p Hq.
    assert (Hall : Forall (λ p, 0 ≤ Player.getTotalCredits p) Sample.allPlayers) by by_compute.
    rewrite Forall_lookup in Hall. by eapply Hall.
Defined.

(** X17.  The award of an innings is the award that
    [Statistics::getPlayerOfMatch] gives for the batting order followed by
    the bowling order: the two loops of [getPlayerOfInnings] are one scan
    of the players of both teams. *)
Theorem player_of_innings_is_one_scan (h : Heap) (s : Innings.t) :
  getPlayerOfInnings h s =
    Statistics.getPlayerOfMatch h (battingOrder s ++ bowlingOrder s).
Proof.
  unfold getPlayerOfInnings, Statistics.getPlayerOfMatch.
  rewrite <- scan_scanBy, scan_app.
  destruct (scan h (battingOrder s) None (-1)) as [[b m]|]; done.
Qed.

(** ** A whole match *)

Lemma playBall_frame (o : Z) (s s' : Innings.t) (h h' : Heap) :
  wf s h → playBall o s h = Some (s', h') →
  battingOrder s' = battingOrder s ∧ bowlingOrder s' = bowlingOrder s ∧
  length h' = length h.
Proof.
  intros Hwf E.
  destruct (playBall_cases o s s' h h' Hwf E)
    as [(_ & -> & ->)|[(_ & _ & bw & p & _ & _ & -> & ->)|(_ & _ & st & ps & bw & pb & _ & _ & _ & _ & -> & ->)]];
    [done| |].
  - destruct (overEnd_nextBall_frame (changeBatsman (scoreWicket bw s)))
      as (_ & _ & -> & -> & _).
    destruct (changeBatsman_frame (scoreWicket bw s)) as (-> & -> & _).
    by rewrite length_insert.
  - destruct (overEnd_nextBall_frame (strikeAfter o (scoreRuns st o s)))
      as (_ & _ & -> & -> & _).
    destruct (strikeAfter_frame o (scoreRuns st o s)) as (-> & -> & _).
    by rewrite !length_insert.
Qed.

(** The loop of an innings, with everything it keeps: the orders, the size
    of the store, well-formedness and sound credits; and it uses no more
    draws than balls were left. *)
Lemma play_full (os : list Z) :
  ∀ (s : Innings.t) (h : Heap),
    wf s h → creditsSound h → Forall (λ o, o ∈ ballOutcomes) os →
    remaining s ≤ Z.of_nat (length os) →
    ∃ used rest s' h',
      os = used ++ rest ∧
      play os s h = Some (s', h', rest) ∧
      wf s' h' ∧ creditsSound h' ∧ isInningsComplete s' = true ∧
      battingOrder s' = battingOrder s ∧ bowlingOrder s' = bowlingOrder s ∧
      length h' = length h ∧
      (used = [] ∨ Z.of_nat (length used) ≤ remaining s).
Proof.
  induction os as [|o os IH]; intros s h Hwf Hs Hos Hr.
  - destruct (isInningsComplete s) eqn:Hc.
    + exists [], [], s, h. simpl. rewrite Hc. repeat (split; [done|]). by left.
    + apply isInningsComplete_false in Hc as [_ Hc2].
      destruct Hwf as (_&_&_&_&_&_&Hb).
      unfold remaining, ballsPerOver, maxOvers in *. simpl in Hr. lia.
  - destruct (isInningsComplete s) eqn:Hc.
    + exists [], (o :: os), s, h. simpl. rewrite Hc. repeat (split; [done|]). by left.
    + apply Forall_cons in Hos as [Ho Hos].
      destruct (playBall_progress o s h Hwf Hc) as (s1 & h1 & E & Hwf1 & Er & _).
      pose proof (playBall_creditsSound o s s1 h h1 Hwf Ho Hs E) as Hs1.
      destruct (playBall_frame o s s1 h h1 Hwf E) as (Eb1 & Eb2 & El).
      destruct (IH s1 h1 Hwf1 Hs1 Hos)
        as (used & rest & s' & h' & -> & E1 & Hwf' & Hs' & Hd & Eb1' & Eb2' & El' & Hu);
        [simpl in Hr; lia|].
      exists (o :: used), rest, s', h'. simpl. rewrite Hc, E. simpl.
      repeat (split; [done|]). split; [congruence|]. split; [congruence|].
      split; [congruence|]. right.
      apply isInningsComplete_false in Hc as [_ Hc2].
      destruct Hwf as (_&_&_&_&_&_&Hb).
      destruct Hu as [->|Hu]; simpl;
        unfold remaining, ballsPerOver, maxOvers in *; lia.
Qed.

Lemma wf_inStore (s : Innings.t) (h : Heap) :
  wf s h →
  inStore h (battingOrder s ++ bowlingOrder s) ∧ battingOrder s ++ bowlingOrder s ≠ [].
Proof.
  intros (Hb & Hw & Hn & _). split.
  - unfold inStore. by apply Forall_app.
  - destruct (bowlingOrder s); [simpl in Hn; lia|]. by destruct (battingOrder s).
Qed.

Lemma creditsSound_credit (h : Heap) (q : nat) : creditsSound h → 0 ≤ credit h q.
Proof.
  intros Hs. unfold credit. destruct (h !! q) as [p|] eqn:E; simpl; [|done].
  by destruct (creditsSound_lookup h q p Hs E).
Qed.

(** The two loops of [playMatch] and the award after them. *)
Lemma playMatch_spec (os : list Z) (m : Match.t) (h : Heap) :
  wf (Match.innings1 m) h → wf (Match.innings2 m) h →
  battingOrder (Match.innings2 m) = bowlingOrder (Match.innings1 m) →
  bowlingOrder (Match.innings2 m) = battingOrder (Match.innings1 m) →
  creditsSound h → Forall (λ o, o ∈ ballOutcomes) os →
  0 ≤ remaining (Match.innings1 m) → 0 ≤ remaining (Match.innings2 m) →
  remaining (Match.innings1 m) + remaining (Match.innings2 m) ≤ Z.of_nat (length os) →
  ∃ m' pom h' used rest,
    Match.playMatch os m h = Some (m', pom, h', rest) ∧
    os = used ++ rest ∧
    Z.of_nat (length used) ≤ remaining (Match.innings1 m) + remaining (Match.innings2 m) ∧
    isInningsComplete (Match.innings1 m') = true ∧
    isInningsComplete (Match.innings2 m') = true ∧
    creditsSound h' ∧
    getPlayerOfInnings h' (Match.innings2 m') = Some (Some pom).
Proof.
  intros Hwf1 Hwf2 Hsw1 Hsw2 Hs Hos Hr1 Hr2 Hlen.
  destruct (play_full os (Match.innings1 m) h Hwf1 Hs Hos)
    as (u1 & r1 & i1 & h1 & -> & E1 & Hwf1' & Hs1 & Hd1 & Eb1 & Ew1 & El1 & Hu1); [lia|].
  apply Forall_app in Hos as [_ Hos2].
  assert (Hlen1 : Z.of_nat (length u1) ≤ remaining (Match.innings1 m)).
  { destruct Hu1 as [->|?]; simpl; lia. }
  rewrite length_app in Hlen.
  destruct (play_full r1 (Match.innings2 m) h1 (wf_heap _ _ _ El1 Hwf2) Hs1 Hos2)
    as (u2 & r2 & i2 & h2 & -> & E2 & Hwf2' & Hs2 & Hd2 & Eb2 & Ew2 & El2 & Hu2); [lia|].
  assert (Hlen2 : Z.of_nat (length u2) ≤ remaining (Match.innings2 m)).
  { destruct Hu2 as [->|?]; simpl; lia. }
  assert (Hwf1'' : wf i1 h2) by (by apply (wf_heap _ h1)).
  destruct (wf_inStore _ _ Hwf1'') as [Hv1 Hne1]. destruct (wf_inStore _ _ Hwf2') as [Hv2 Hne2].
  destruct (getPlayerOfInnings_firstBest h2 i1 Hv1 Hne1) as (a1 & Ea1 & F1);
    [intros; by apply creditsSound_credit|].
  destruct (getPlayerOfInnings_firstBest h2 i2 Hv2 Hne2) as (a2 & Ea2 & F2);
    [intros; by apply creditsSound_credit|].
  assert (Hcr : credit h2 a1 = credit h2 a2).
  { apply (standout_is_second_awardee h2 (Match.mk i1 i2)); simpl; congruence. }
  assert (Hin : ∀ v a, inStore h2 v → firstBest h2 v a → ∃ p, h2 !! a = Some p).
  { intros v a Hv (i & Ei & _). unfold inStore in Hv. rewrite Forall_lookup in Hv.
    apply (lookup_lt_is_Some_2 h2 a). by eapply Hv. }
  destruct (Hin _ _ Hv1 F1) as [p1 Hp1]. destruct (Hin _ _ Hv2 F2) as [p2 Hp2].
  exists (Match.mk i1 i2), a2, h2, (u1 ++ u2), r2.
  split.
  { unfold Match.playMatch. rewrite E1. simpl. rewrite E2. simpl.
    unfold Match.calculatePlayerOfMatch. simpl. rewrite Ea1, Ea2. simpl.
    rewrite Hp1, Hp2. simpl.
    rewrite (credit_lookup _ _ _ Hp1), (credit_lookup _ _ _ Hp2) in Hcr.
    rewrite Hcr, Z.ltb_irrefl. done. }
  split; [by rewrite <- app_assoc|]. split; [rewrite length_app; lia|done].
Qed.

(** X18.  A match always ends.  For two well-formed innings over the same
    two teams in opposite roles, sound credits, and draws that cover the
    balls left in both innings, [playMatch] returns: both innings are
    complete, the draws not used are returned, at most the balls left of
    the two innings were drawn, credits are still sound, and the player of
    the match is the awardee of the second innings. *)
Theorem playMatch_completes (os : list Z) (m : Match.t) (h : Heap) :
  wf (Match.innings1 m) h → wf (Match.innings2 m) h →
  battingOrder (Match.innings2 m) = bowlingOrder (Match.innings1 m) →
  bowlingOrder (Match.innings2 m) = battingOrder (Match.innings1 m) →
  creditsSound h → Forall (λ o, o ∈ ballOutcomes) os →
  0 ≤ remaining (Match.innings1 m) → 0 ≤ remaining (Match.innings2 m) →
  remaining (Match.innings1 m) + remaining (Match.innings2 m) ≤ Z.of_nat (length os) →
  ∃ m' pom h' used rest,
    Match.playMatch os m h = Some (m', pom, h', rest) ∧
    os = used ++ rest ∧
    Z.of_nat (length used) ≤ remaining (Match.innings1 m) + remaining (Match.innings2 m) ∧
    isInningsComplete (Match.innings1 m') = true ∧
    isInningsComplete (Match.innings2 m') = true ∧
    creditsSound h' ∧
    getPlayerOfInnings h' (Match.innings2 m') = Some (Some pom).
Proof. apply playMatch_spec. Qed.

Lemma playMatch_completes_witness :
  ∃ m' pom h' used rest,
    Match.playMatch (Sample.wicketFirst ++ [1; 2]) Sample.match1 Sample.allPlayers
      = Some (m', pom, h', rest) ∧
    Sample.wicketFirst ++ [1; 2] = used ++ rest ∧
    Z.of_nat (length used)
      ≤ remaining (Match.innings1 Sample.match1) + remaining (Match.innings2 Sample.match1) ∧
    isInningsComplete (Match.innings1 m') = true ∧
    isInningsComplete (Match.innings2 m') = true ∧
    creditsSound h' ∧
    getPlayerOfInnings h' (Match.innings2 m') = Some (Some pom).
Proof.
  apply (playMatch_completes (Sample.wicketFirst ++ [1; 2]) Sample.match1 Sample.allPlayers).
  - by_compute.
  - by_compute.
  - reflexivity.
  - reflexivity.
  - unfold creditsSound. by_compute.
  - unfold ballOutcomes. by_compute.
  - vm_compute. discriminate.
  - vm_compute. discriminate.
  - vm_compute. discriminate.
Defined.

(** X19.  A round never fails on the names typed in.  For two teams of at
    least two players of the store, any six names, sound credits and at
    least 24 draws, [playRound] on their fixture returns, with sound
    credits and at most 24 draws used. *)
Theorem playRound_always_returns (n : Match.Names) (os : list Z)
    (team1 team2 : list nat) (h : Heap) :
  inStore h team1 → inStore h team2 →
  (2 ≤ length team1)%nat → (2 ≤ length team2)%nat →
  creditsSound h → Forall (λ o, o ∈ ballOutcomes) os →
  (24 ≤ length os)%nat →
  ∃ h' used rest,
    Tournament.playRound n os (Match.new team1 team2) h = Some (h', rest) ∧
    os = used ++ rest ∧ (length used ≤ 24)%nat ∧
    creditsSound h'.
Proof.
  intros Hv1 Hv2 Hn1 Hn2 Hs Hos Hlen.
  destruct (setup_new_wf h team1 team2 (Match.striker1 n) (Match.nonStriker1 n)
              (Match.bowler1 n) Hv1 Hv2 Hn1 Hn2)
    as (a & a' & Ea & Ea' & Hwfa & Eab & Eaw & _ & _ & Eao & _ & Eac).
  destruct (setup_new_wf h team2 team1 (Match.striker2 n) (Match.nonStriker2 n)
              (Match.bowler2 n) Hv2 Hv1 Hn2 Hn1)
    as (b & b' & Eb & Eb' & Hwfb & Ebb & Ebw & _ & _ & Ebo & _ & Ebc).
  assert (Hra : remaining a' = 12) by (unfold remaining; rewrite Eao, Eac; done).
  assert (Hrb : remaining b' = 12) by (unfold remaining; rewrite Ebo, Ebc; done).
  destruct (playMatch_spec os (Match.mk a' b') h)
    as (m' & pom & h' & used & rest & E & Eos & Hused & _ & _ & Hs' & _); simpl;
    try done; try congruence; try lia.
  exists h', used, rest. split.
  - unfold Tournament.playRound, Match.setupInnings. simpl.
    rewrite Ea. simpl. rewrite Ea'. simpl. rewrite Eb. simpl. rewrite Eb'. simpl.
    rewrite E. done.
  - split; [done|]. split; [|done]. simpl in Hused. lia.
Qed.

Lemma playRound_always_returns_witness :
  ∃ h' used rest,
    Tournament.playRound Sample.names1 (Sample.wicketFirst ++ [1; 2])
      (Match.new [0; 1; 2; 3; 4]%nat [5; 6; 7; 8; 9]%nat) Sample.allPlayers = Some (h', rest) ∧
    Sample.wicketFirst ++ [1; 2] = used ++ rest ∧ (length used ≤ 24)%nat ∧
    creditsSound h'.
Proof.
  apply (playRound_always_returns Sample.names1 (Sample.wicketFirst ++ [1; 2])
           [0; 1; 2; 3; 4]%nat [5; 6; 7; 8; 9]%nat Sample.allPlayers).
  - unfold inStore. by_compute.
  - unfold inStore. by_compute.
  - simpl. lia.
  - simpl. lia.
  - unfold creditsSound. by_compute.
  - unfold ballOutcomes. by_compute.
  - simpl. lia.
Defined.

(** ** Validating a playing five *)

Lemma validate_loop_bounds (h : Heap) (v : list nat) :
  ∀ (bowlers batsmen bowlers' batsmen' : Z),
    Team.validate_loop h v bowlers batsmen = Some (bowlers', batsmen') →
    bowlers' ≤ bowlers + Z.of_nat (length v) ∧ batsmen' ≤ batsmen + Z.of_nat (length v).
Proof.
  induction v as [|pid v IH]; intros bw bt bw' bt' E; simpl in E.
  - injection E as <- <-. simpl. lia.
  - destruct (h !! pid) as [p|]; [simpl in E|done].
    apply IH in E. simpl length.
    destruct (Team.isBowler p), (Team.isBatsman p); lia.
Qed.

(** X20.  Two playing fives that [validatePlaying5] accepts make a
    well-formed innings: each has at least two players, so the openers at
    positions 0 and 1 exist and the bowlers can alternate. *)
Theorem validated_teams_make_an_innings (h : Heap) (tm1 tm2 : Team.t) :
  inStore h (Team.playing5 tm1) → inStore h (Team.playing5 tm2) →
  Team.validatePlaying5 h tm1 = Some true →
  Team.validatePlaying5 h tm2 = Some true →
  wf (Innings.new (Team.playing5 tm1) (Team.playing5 tm2)) h.
Proof.
  intros Hv1 Hv2 E1 E2.
  assert (Hlen : ∀ tm, Team.validatePlaying5 h tm = Some true →
                       (2 ≤ length (Team.playing5 tm))%nat).
  { intros tm E. unfold Team.validatePlaying5 in E.
    destruct (Team.validate_loop h (Team.playing5 tm) 0 0) as [[bw bt]|] eqn:El; [|done].
    simpl in E. injection E as E. apply andb_true_iff in E as [Hb _].
    apply Z.leb_le in Hb. apply validate_loop_bounds in El. lia. }
  pose proof (Hlen tm1 E1). pose proof (Hlen tm2 E2).
  unfold wf. simpl. unfold ballsPerOver. repeat split; try done; lia.
Qed.

Lemma validated_teams_make_an_innings_witness :
  wf (Innings.new
        (Team.playing5 (Team.mk "a" "A" [0; 1; 2; 3; 4]%nat [0; 1; 2; 3; 4]%nat 0 0 0 0 0))
        (Team.playing5 (Team.mk "b" "B" [5; 6; 7; 8; 9]%nat [5; 6; 7; 8; 9]%nat 0 0 0 0 0)))
     Sample.allPlayers.
Proof.
  apply (validated_teams_make_an_innings Sample.allPlayers
           (Team.mk "a" "A" [0; 1; 2; 3; 4]%nat [0; 1; 2; 3; 4]%nat 0 0 0 0 0)
           (Team.mk "b" "B" [5; 6; 7; 8; 9]%nat [5; 6; 7; 8; 9]%nat 0 0 0 0 0)).
  - unfold inStore. by_compute.
  - unfold inStore. by_compute.
  - reflexivity.
  - reflexivity.
Defined.
